(** * fix_auth_bug11.py: a shallow embedding and its verified properties

    The script patches two files with two [re.sub] calls and one
    [str.replace] call, printing progress lines in between.  The
    development below embeds

    - Python text ([str]) as a list of Unicode code points,
    - [str.replace] and the part of [re] the two patterns use
      (literals, [.], [\s], [*], [*?], capture groups, [re.sub] and its
      replacement templates),
    - the script itself as a computation over a file system and a
      console, in a small state-and-exception monad.

    The file system maps a path to a directory or to a regular file
    with the permissions of the user who runs the script.  The bytes of
    a regular file are taken in the encoding that [open] uses: they are
    the characters that they decode to, or they do not decode (the
    encoding is one-to-one between the byte sequences that it accepts
    and their texts, as UTF-8 and the single-byte encodings are).
    Reading in text mode turns every line end into a line feed, and
    writing in text mode turns every line feed into the line separator
    of the platform.  The texts that the script writes consist of
    characters that it has read and of ASCII characters, so that writing
    them has no encoding error.  Directories are taken to be accessible,
    and failures of the device are not part of the model. *)

From Stdlib Require Import NArith Ascii.
From stdpp Require Import gmap strings list.

Local Open Scope string_scope.
Local Open Scope list_scope.
Local Open Scope nat_scope.

(** ** Text *)

Module Text.

(** A character is a code point, a [str] is a sequence of them. *)
Definition char := N.
Definition str := list char.

(** The text denoted by a source literal all of whose characters are ASCII. *)
Definition lit (s : string) : str :=
  Ascii.N_of_ascii <$> String.list_ascii_of_string s.

(** [s.startswith(p)] *)
Fixpoint startswith (p s : str) : bool :=
  match p, s with
  | [], _ => true
  | _ :: _, [] => false
  | a :: p', b :: s' => N.eqb a b && startswith p' s'
  end.

(** The number of positions of [s] at which [p] occurs. *)
Fixpoint occurrences (p s : str) : nat :=
  (if startswith p s then 1 else 0) +
  match s with
  | [] => 0
  | _ :: s' => occurrences p s'
  end.

(** [p in s] *)
Definition contains (p s : str) : bool := negb (Nat.eqb (occurrences p s) 0).

(** [s.count(p)]: occurrences found by one scan from the left that
    resumes after each occurrence found ([skip] characters remain in the
    occurrence being passed over). *)
Fixpoint count_scan (p : str) (skip : nat) (s : str) : nat :=
  match s with
  | [] => 0
  | _ :: s' =>
      match skip with
      | S k => count_scan p k s'
      | O => if startswith p s
             then S (count_scan p (length p - 1) s')
             else count_scan p 0 s'
      end
  end.

Definition str_count (p s : str) : nat :=
  match p with
  | [] => S (length s)
  | _ => count_scan p 0 s
  end.

(** [s.replace(old, new)]: the same scan; every occurrence it finds is
    replaced by [new], every other character is copied. *)
Fixpoint replace_scan (old new : str) (skip : nat) (s : str) : str :=
  match s with
  | [] => []
  | c :: s' =>
      match skip with
      | S k => replace_scan old new k s'
      | O => if startswith old s
             then new ++ replace_scan old new (length old - 1) s'
             else c :: replace_scan old new 0 s'
      end
  end.

Definition str_replace (old new s : str) : str :=
  match old with
  | [] => new ++ flat_map (λ c, c :: new) s
  | _ => replace_scan old new 0 s
  end.

(** *** Notions used to state and prove properties of the above *)

(** The number of occurrences of [p] in [u ++ t] that start inside [u]. *)
Fixpoint occ_in (p u t : str) : nat :=
  match u with
  | [] => 0
  | _ :: u' => (if startswith p (u ++ t) then 1 else 0) + occ_in p u' t
  end.

(** [p] and [x] differ at a position that both have. *)
Fixpoint mismatch (p x : str) : bool :=
  match p, x with
  | a :: p', b :: x' => negb (N.eqb a b) || mismatch p' x'
  | _, _ => false
  end.

(** No occurrence of [p] can start inside [u], whatever follows [u]. *)
Fixpoint no_start (p u : str) : bool :=
  match u with
  | [] => true
  | _ :: u' => mismatch p u && no_start p u'
  end.

(** Every non-empty suffix of [u] differs from [x] at a position that
    both have. *)
Fixpoint suffixes_clash (u x : str) : bool :=
  match u with
  | [] => true
  | _ :: u' => mismatch u x && suffixes_clash u' x
  end.

(** No carriage return in [s]. *)
Definition no_cr (s : str) : bool := forallb (λ c, negb (N.eqb c 13)) s.

End Text.

(** ** Regular expressions: the part of [re] that the script uses *)

Module Re.
Import Text.

(** [\s] on text: the code points for which [str.isspace] holds. *)
Definition is_space (c : char) : bool :=
  (N.leb 9 c && N.leb c 13) || (N.leb 28 c && N.leb c 32)
  || N.eqb c 133 || N.eqb c 160 || N.eqb c 5760
  || (N.leb 8192 c && N.leb c 8202)
  || N.eqb c 8232 || N.eqb c 8233 || N.eqb c 8239 || N.eqb c 8287
  || N.eqb c 12288.

(** One-character items: [.] without and with [re.DOTALL], [\s], and a
    literal character. *)
Inductive cls :=
  | ANY
  | ANY_ALL
  | CATEGORY_SPACE
  | LITERAL (c : char).

Definition in_cls (k : cls) (c : char) : bool :=
  match k with
  | ANY => negb (N.eqb c 10)
  | ANY_ALL => true
  | CATEGORY_SPACE => is_space c
  | LITERAL a => N.eqb a c
  end.

(** Compiled patterns: a sequence of one-character items, lazy ([x*?])
    and greedy ([x*]) repetitions of such an item, and group marks
    (group [g] is delimited by the marks [2g-2] and [2g-1]). *)
Inductive op :=
  | ONE (k : cls)
  | MIN_REPEAT (k : cls)
  | MAX_REPEAT (k : cls)
  | MARK (i : nat).

(** The items of a run of literal characters. *)
Definition lits (l : str) : list op := (λ c, ONE (LITERAL c)) <$> l.

(** *** Parsing a pattern *)

Inductive token :=
  | TChar (k : cls)
  | TStar
  | TQuestion
  | TOpen
  | TClose.

Definition code (a : ascii) : char := Ascii.N_of_ascii a.

Definition is_digit (a : ascii) : bool :=
  N.leb 48 (code a) && N.leb (code a) 57.

Definition is_alnum (a : ascii) : bool :=
  is_digit a
  || (N.leb 65 (code a) && N.leb (code a) 90)
  || (N.leb 97 (code a) && N.leb (code a) 122).

(** [\s] is the only letter escape supported; a backslash before a
    character that is no letter or digit denotes that character. *)
Definition escape (a : ascii) : option token :=
  if Ascii.eqb a "s" then Some (TChar CATEGORY_SPACE)
  else if is_alnum a then None
  else Some (TChar (LITERAL (code a))).

(** Characters with a meaning that this fragment does not implement are
    refused; [}] alone stands for itself, as in [re]. *)
Definition plain (dotall : bool) (a : ascii) : option token :=
  if Ascii.eqb a "." then Some (TChar (if dotall then ANY_ALL else ANY))
  else if Ascii.eqb a "*" then Some TStar
  else if Ascii.eqb a "?" then Some TQuestion
  else if Ascii.eqb a "(" then Some TOpen
  else if Ascii.eqb a ")" then Some TClose
  else if Ascii.eqb a "[" || Ascii.eqb a "{" || Ascii.eqb a "|"
          || Ascii.eqb a "+" || Ascii.eqb a "^" || Ascii.eqb a "$"
       then None
  else Some (TChar (LITERAL (code a))).

Fixpoint tokenize (dotall : bool) (p : list ascii) : option (list token) :=
  match p with
  | [] => Some []
  | a :: p' =>
      if Ascii.eqb a "\" then
        match p' with
        | [] => None
        | b :: p'' =>
            match escape b, tokenize dotall p'' with
            | Some t, Some ts => Some (t :: ts)
            | _, _ => None
            end
        end
      else
        match plain dotall a, tokenize dotall p' with
        | Some t, Some ts => Some (t :: ts)
        | _, _ => None
        end
  end.

(** [next] groups have been opened so far; [opened] are those not yet
    closed, innermost first. *)
Fixpoint assemble (ts : list token) (next : nat) (opened : list nat)
  : option (list op) :=
  match ts with
  | [] => match opened with [] => Some [] | _ :: _ => None end
  | TChar k :: ts1 =>
      match ts1 with
      | TStar :: ts2 =>
          match ts2 with
          | TQuestion :: ts3 => cons (MIN_REPEAT k) <$> assemble ts3 next opened
          | _ => cons (MAX_REPEAT k) <$> assemble ts2 next opened
          end
      | _ => cons (ONE k) <$> assemble ts1 next opened
      end
  | TOpen :: ts1 =>
      cons (MARK (2 * next)) <$> assemble ts1 (S next) (next :: opened)
  | TClose :: ts1 =>
      match opened with
      | g :: opened' => cons (MARK (2 * g + 1)) <$> assemble ts1 next opened'
      | [] => None
      end
  | TStar :: _ | TQuestion :: _ => None
  end.

(** [re.compile(pattern, re.DOTALL if dotall else 0)]; [None] stands for
    [re.error] and for syntax outside the fragment. *)
Definition sre_compile (dotall : bool) (pattern : string) : option (list op) :=
  match tokenize dotall (String.list_ascii_of_string pattern) with
  | Some ts => assemble ts 0 []
  | None => None
  end.

(** The number of groups of a compiled pattern. *)
Fixpoint groups (prog : list op) : nat :=
  match prog with
  | [] => 0
  | MARK i :: prog' => (if Nat.even i then 1 else 0) + groups prog'
  | _ :: prog' => groups prog'
  end.

(** *** Matching *)

(** Mark positions, counted from the start of the match. *)
Abbreviation marks := (gmap nat nat).

Section Repeat.
Context {R : Type}.
Variable k : cls.
(** What follows the repetition, given the number of characters matched
    so far and the text that remains. *)
Variable rest : nat → str → option R.

(** [x*?]: try what follows first, take one more [x] when that fails. *)
Fixpoint min_repeat (n : nat) (s : str) : option R :=
  match rest n s with
  | Some r => Some r
  | None =>
      match s with
      | c :: s' => if in_cls k c then min_repeat (S n) s' else None
      | [] => None
      end
  end.

(** [x*]: take one more [x] first, try what follows when that fails. *)
Fixpoint max_repeat (n : nat) (s : str) : option R :=
  match
    match s with
    | c :: s' => if in_cls k c then max_repeat (S n) s' else None
    | [] => None
    end
  with
  | Some r => Some r
  | None => rest n s
  end.
End Repeat.

(** The backtracking matcher, anchored where [s] starts: [n] characters
    of the match precede [s].  With [must_advance] an empty match is
    refused. *)
Fixpoint sre_match (prog : list op) (must_advance : bool) (m : marks)
    (n : nat) (s : str) : option (nat * marks) :=
  match prog with
  | [] => if must_advance && Nat.eqb n 0 then None else Some (n, m)
  | ONE k :: prog' =>
      match s with
      | c :: s' => if in_cls k c then sre_match prog' must_advance m (S n) s'
                   else None
      | [] => None
      end
  | MIN_REPEAT k :: prog' =>
      min_repeat k (sre_match prog' must_advance m) n s
  | MAX_REPEAT k :: prog' =>
      max_repeat k (sre_match prog' must_advance m) n s
  | MARK i :: prog' => sre_match prog' must_advance (<[i:=n]> m) n s
  end.

(** The leftmost match: its start, its length and its marks.
    [must_advance] constrains the first position only. *)
Fixpoint sre_search (prog : list op) (must_advance : bool) (s : str)
  : option (nat * nat * marks) :=
  match sre_match prog must_advance ∅ 0 s with
  | Some (n, m) => Some (0, n, m)
  | None =>
      match s with
      | [] => None
      | _ :: s' =>
          match sre_search prog false s' with
          | Some (b, n, m) => Some (S b, n, m)
          | None => None
          end
      end
  end.

(** The text of group [g] of a match whose text starts [ms]; a group that
    took no part in the match is empty. *)
Definition group (g : nat) (m : marks) (ms : str) : str :=
  match m !! (2 * g - 2), m !! (2 * g - 1) with
  | Some a, Some b => take (b - a) (drop a ms)
  | _, _ => []
  end.

(** *** Replacement templates *)

Inductive titem :=
  | T_LITERAL (c : char)
  | T_GROUP (g : nat).

Definition digit_value (a : ascii) : nat := N.to_nat (code a) - 48.

(** [\1] to [\9] not followed by a digit, [\n] and [\\]; other escapes
    are refused. *)
Fixpoint parse_template (t : list ascii) : option (list titem) :=
  match t with
  | [] => Some []
  | a :: t' =>
      if Ascii.eqb a "\" then
        match t' with
        | [] => None
        | b :: t'' =>
            let item :=
              if Ascii.eqb b "n" then Some (T_LITERAL 10%N)
              else if Ascii.eqb b "\" then Some (T_LITERAL (code b))
              else if is_digit b && negb (Ascii.eqb b "0")
                      && negb (match t'' with d :: _ => is_digit d | [] => false end)
                   then Some (T_GROUP (digit_value b))
              else None in
            match item, parse_template t'' with
            | Some i, Some items => Some (i :: items)
            | _, _ => None
            end
        end
      else cons (T_LITERAL (code a)) <$> parse_template t'
  end.

Definition expand (tmpl : list titem) (m : marks) (ms : str) : str :=
  flat_map (λ i, match i with
                 | T_LITERAL c => [c]
                 | T_GROUP g => group g m ms
                 end) tmpl.

(** A template may only refer to groups of the pattern. *)
Definition template_ok (ngroups : nat) (tmpl : list titem) : bool :=
  forallb (λ i, match i with
                | T_LITERAL _ => true
                | T_GROUP g => Nat.leb g ngroups
                end) tmpl.

(** *** Substitution *)

(** The loop of [re.sub]: [done] replacements were made, [count] is the
    bound on them (0: none).  Each round searches the text that remains,
    copies what precedes the match, appends the expanded template and
    goes on after the match; after an empty match the next one must
    advance.  [fuel] bounds the number of rounds. *)
Fixpoint subx (prog : list op) (tmpl : list titem) (count : nat)
    (fuel : nat) (done : nat) (must_advance : bool) (s : str) : str :=
  match fuel with
  | O => s
  | S fuel' =>
      if Nat.eqb count 0 || Nat.ltb done count then
        match sre_search prog must_advance s with
        | None => s
        | Some (b, n, m) =>
            take b s ++ expand tmpl m (drop b s)
              ++ subx prog tmpl count fuel' (S done) (Nat.eqb n 0)
                   (drop (b + n) s)
        end
      else s
  end.

(** [re.sub(pattern, repl, s, count, flags)] with [flags] either 0 or
    [re.DOTALL]. *)
Definition re_sub (pattern repl : string) (s : str) (count : nat)
    (dotall : bool) : option str :=
  match sre_compile dotall pattern,
        parse_template (String.list_ascii_of_string repl) with
  | Some prog, Some tmpl =>
      if template_ok (groups prog) tmpl
      then Some (subx prog tmpl count (2 * length s + 2) 0 false s)
      else None
  | _, _ => None
  end.

(** [re.sub] once the pattern and the template are compiled: without a
    bound, and with [count=1]. *)
Definition sub_all (prog : list op) (tmpl : list titem) (s : str) : str :=
  subx prog tmpl 0 (2 * length s + 2) 0 false s.

Definition sub_first (prog : list op) (tmpl : list titem) (s : str) : str :=
  subx prog tmpl 1 (2 * length s + 2) 0 false s.

(** What it means that [out] is [s] with every match replaced: the
    matches are taken from the left, each search starts where the match
    before it ended, and nothing else is changed.  (For matches that are
    not empty.) *)
Inductive all_replaced (prog : list op) (tmpl : list titem) : str → str → Prop :=
  | all_replaced_none (s : str) :
      sre_search prog false s = None →
      all_replaced prog tmpl s s
  | all_replaced_match (s : str) (b n : nat) (m : marks) (out : str) :
      sre_search prog false s = Some (b, n, m) →
      0 < n →
      all_replaced prog tmpl (drop (b + n) s) out →
      all_replaced prog tmpl s (take b s ++ expand tmpl m (drop b s) ++ out).

(** The rounds that [subx] can need on [s]: every round but the one
    after an empty match takes a character. *)
Definition rounds (must_advance : bool) (s : str) : nat :=
  2 * length s + (if must_advance then 0 else 1).

End Re.

(** ** The script *)

Module Script.
Import Text Re.

(** The platform decides what [os.linesep] is. *)
Inductive os :=
  | Posix
  | Windows.

Definition linesep (p : os) : str :=
  match p with
  | Posix => [10%N]
  | Windows => [13%N; 10%N]
  end.

(** What a regular file holds: characters, or bytes that the encoding of
    [open] does not decode. *)
Inductive data :=
  | Text (raw : str)
  | Undecodable.

(** An entry of the file system. *)
Inductive node :=
  | Directory
  | Regular (readable writable : bool) (d : data).

(** A file that the script may read and write and whose bytes decode. *)
Definition text_file (raw : str) : node := Regular true true (Text raw).

(** The world the script acts on: the platform, the file system, and
    what was printed so far (one entry per [print] call). *)
Record world := World {
  platform : os;
  files : gmap string node;
  console : list string;
}.

(** Exceptions that end the run: those of [open] and [read], and
    [re.error]. *)
Inductive exn :=
  | FileNotFoundError (path : string)
  | IsADirectoryError (path : string)
  | PermissionError (path : string)
  | UnicodeDecodeError
  | ReError.

(** Reading in text mode with universal newlines: a carriage return with
    the line feed that follows it, and a carriage return alone, are read
    as one line feed. *)
Fixpoint universal_newlines (raw : str) : str :=
  match raw with
  | [] => []
  | c :: t =>
      if N.eqb c 13 then
        10%N :: match t with
                | d :: t' => if N.eqb d 10 then universal_newlines t'
                             else universal_newlines t
                | [] => []
                end
      else c :: universal_newlines t
  end.

(** Writing in text mode: every line feed is written as [os.linesep]. *)
Definition to_linesep (p : os) (text : str) : str :=
  flat_map (λ c, if N.eqb c 10 then linesep p else [c]) text.

(** A computation either returns or raises; the world it leaves is kept
    in both cases. *)
Definition M (A : Type) : Type := world → (exn + A) * world.

#[export] Instance M_ret : MRet M := λ A a w, (inr a, w).

#[export] Instance M_bind : MBind M := λ A B f c w,
  match c w with
  | (inr a, w') => f a w'
  | (inl e, w') => (inl e, w')
  end.

Definition raise {A} (e : exn) : M A := λ w, (inl e, w).

(** [print(msg)] *)
Definition print (msg : string) : M unit := λ w,
  (inr (), World (platform w) (files w) (console w ++ [msg])).

(** What [open] raises for a directory. *)
Definition directory_error (p : os) (path : string) : exn :=
  match p with
  | Posix => IsADirectoryError path
  | Windows => PermissionError path
  end.

(** [with open(path, 'r') as f: content = f.read()]: [open] raises for a
    missing path, a directory and a file that the user may not read;
    [read] raises for bytes that do not decode. *)
Definition read (path : string) : M str := λ w,
  match files w !! path with
  | None => (inl (FileNotFoundError path), w)
  | Some Directory => (inl (directory_error (platform w) path), w)
  | Some (Regular false _ _) => (inl (PermissionError path), w)
  | Some (Regular true _ Undecodable) => (inl UnicodeDecodeError, w)
  | Some (Regular true _ (Text raw)) => (inr (universal_newlines raw), w)
  end.

(** [with open(path, 'w') as f: f.write(content)]: [open] raises for a
    directory and a file that the user may not write, and leaves the
    file as it is then; otherwise the file holds the text written, and
    nothing of what it held.  A missing file is created (the script
    writes only files that it has read). *)
Definition write (path : string) (content : str) : M unit := λ w,
  let stored := Text (to_linesep (platform w) content) in
  match files w !! path with
  | Some Directory => (inl (directory_error (platform w) path), w)
  | Some (Regular _ false _) => (inl (PermissionError path), w)
  | Some (Regular r true _) =>
      (inr (), World (platform w) (<[path := Regular r true stored]> (files w))
                     (console w))
  | None =>
      (inr (), World (platform w) (<[path := Regular true true stored]> (files w))
                     (console w))
  end.

(** The file that holds [text] after it was written on platform [p]. *)
Definition stored (p : os) (text : str) : node :=
  text_file (to_linesep p text).

(** The exception that reading the file at [path] and writing it back
    raises, if any: the first of those of [read] and those of [write]. *)
Definition access_error (p : os) (path : string) (n : option node)
  : option exn :=
  match n with
  | None => Some (FileNotFoundError path)
  | Some Directory => Some (directory_error p path)
  | Some (Regular false _ _) => Some (PermissionError path)
  | Some (Regular true _ Undecodable) => Some UnicodeDecodeError
  | Some (Regular true false (Text _)) => Some (PermissionError path)
  | Some (Regular true true (Text _)) => None
  end.

(** A library call that may raise [re.error]. *)
Definition checked {A} (r : option A) : M A :=
  match r with
  | Some a => mret a
  | None => raise ReError
  end.

Definition nl : string := String "010"%char EmptyString.

Fixpoint join_lines (ls : list string) : string :=
  match ls with
  | [] => ""
  | [l] => l
  | l :: ls' => l +:+ nl +:+ join_lines ls'
  end.

Definition routes_ts : string := "server/routes.ts".
Definition api_ts : string := "client/src/lib/api.ts".

(** *** Fix #11.1: session assignment in the login endpoint *)

Definition pattern_11_1 : string :=
  "(// Verify password.*?if \(!isValidPassword\) \{.*?\}\s*})\s*(// Generate JWT token)".

Definition replacement_11_1 : string :=
  "\1\n\n    // Set session userId for session-based auth\n    req.session.userId = user.id;\n\n    \2".

Definition sub_11_1 (content : str) : option str :=
  re_sub pattern_11_1 replacement_11_1 content 0 true.

Definition fix_11_1 : M unit :=
  print "Fix #11.1: Adding req.session.userId to login endpoint...";;
  content ← read routes_ts;
  content ← checked (sub_11_1 content);
  write routes_ts content;;
  print "✓ Fix #11.1 complete".

(** *** Fix #11.2: auth checks in the preview and download endpoints *)

Definition old_11_2 : str := lit "req.session?.userId || req.user?.id".
Definition new_11_2 : str := lit "req.session?.userId".

Definition replace_11_2 (content : str) : str :=
  str_replace old_11_2 new_11_2 content.

Definition fix_11_2 : M unit :=
  print "Fix #11.2: Simplifying auth checks...";;
  content ← read routes_ts;
  write routes_ts (replace_11_2 content);;
  print "✓ Fix #11.2 complete".

(** *** Fix #11.3 and #11.4: [apiRequest] in the client *)

Definition pattern_11_3 : string :=
  "(export const apiRequest = async \(url: string, options: RequestInit = \{\}\) => \{\s*)// Build headers.*?\}\);".

Definition replacement_11_3 : string := join_lines [
  "\1// Build headers with session credentials";
  "  const headers: Record<string, string> = {";
  "    'Content-Type': 'application/json',";
  "    ...options.headers as Record<string, string>,";
  "  };";
  "";
  "  return fetch(url, {";
  "    ...options,";
  "    headers,";
  "    credentials: 'include', // Send session cookies";
  "  });"
].

Definition sub_11_3 (content : str) : option str :=
  re_sub pattern_11_3 replacement_11_3 content 0 true.

Definition fix_11_3 : M unit :=
  print "Fix #11.3 & #11.4: Updating apiRequest...";;
  content ← read api_ts;
  content ← checked (sub_11_3 content);
  write api_ts content;;
  print "✓ Fix #11.3 & #11.4 complete".

(** *** The whole run *)

Definition main : M unit :=
  print "Applying Bug #11 fixes...";;
  fix_11_1;;
  fix_11_2;;
  fix_11_3;;
  print (nl +:+ "✅ All Bug #11 backend and frontend fixes applied!");;
  print "Next: Remove localStorage JWT from Login component manually".

(** *** The patterns and templates in compiled form *)

Definition verify_anchor : str := lit "// Verify password".
Definition guard_anchor : str := lit "if (!isValidPassword) {".
Definition brace : str := lit "}".
Definition token_anchor : str := lit "// Generate JWT token".

Definition prog_11_1 : list op :=
  MARK 0 :: lits verify_anchor ++ MIN_REPEAT ANY_ALL
    :: lits guard_anchor ++ MIN_REPEAT ANY_ALL
    :: lits brace ++ MAX_REPEAT CATEGORY_SPACE :: lits brace
    ++ MARK 1 :: MAX_REPEAT CATEGORY_SPACE
    :: MARK 2 :: lits token_anchor ++ [MARK 3].

(** What fix #11.1 puts between group 1 and group 2. *)
Definition inserted_11_1 : str := lit (join_lines [
  "";
  "";
  "    // Set session userId for session-based auth";
  "    req.session.userId = user.id;";
  "";
  "    "
]).

Definition tmpl_11_1 : list titem :=
  T_GROUP 1 :: (T_LITERAL <$> inserted_11_1) ++ [T_GROUP 2].

Definition signature_11_3 : str :=
  lit "export const apiRequest = async (url: string, options: RequestInit = {}) => {".
Definition headers_anchor : str := lit "// Build headers".
Definition closing_11_3 : str := lit "});".

Definition prog_11_3 : list op :=
  MARK 0 :: lits signature_11_3 ++ MAX_REPEAT CATEGORY_SPACE
    :: MARK 1 :: lits headers_anchor ++ MIN_REPEAT ANY_ALL
    :: lits closing_11_3.

(** What fix #11.3 puts after group 1. *)
Definition block_11_3 : str := lit (join_lines [
  "// Build headers with session credentials";
  "  const headers: Record<string, string> = {";
  "    'Content-Type': 'application/json',";
  "    ...options.headers as Record<string, string>,";
  "  };";
  "";
  "  return fetch(url, {";
  "    ...options,";
  "    headers,";
  "    credentials: 'include', // Send session cookies";
  "  });"
]).

Definition tmpl_11_3 : list titem := T_GROUP 1 :: (T_LITERAL <$> block_11_3).

(** What a run that meets both files prints. *)
Definition transcript : list string := [
  "Applying Bug #11 fixes...";
  "Fix #11.1: Adding req.session.userId to login endpoint...";
  "✓ Fix #11.1 complete";
  "Fix #11.2: Simplifying auth checks...";
  "✓ Fix #11.2 complete";
  "Fix #11.3 & #11.4: Updating apiRequest...";
  "✓ Fix #11.3 & #11.4 complete";
  nl +:+ "✅ All Bug #11 backend and frontend fixes applied!";
  "Next: Remove localStorage JWT from Login component manually"
].

(** The line that fix #11.1 is to add. *)
Definition session_line : str := lit "req.session.userId = user.id;".

(** What [replace_11_2] drops from each occurrence. *)
Definition dropped_11_2 : str := lit " || req.user?.id".

(** The fixed block without the headers comment it begins with and the
    [});] it ends with. *)
Definition block_body_11_3 : str :=
  drop (length headers_anchor)
       (take (length block_11_3 - length closing_11_3) block_11_3).

(** What the pattern of fix #11.1 looks for, said without the pattern:
    somewhere in the text the verification comment, later the guard,
    later a [}], white space, a [}], white space and the token comment. *)
Definition login_shape (content : str) : Prop :=
  ∃ pre x y w1 w2 rest,
    content = pre ++ verify_anchor ++ x ++ guard_anchor ++ y ++ brace
                ++ w1 ++ brace ++ w2 ++ token_anchor ++ rest
    ∧ forallb is_space w1 = true
    ∧ forallb is_space w2 = true.

(** What the pattern of fix #11.3 looks for: the signature, white space,
    the headers comment and, later, [});]. *)
Definition request_shape (content : str) : Prop :=
  ∃ pre ws body rest,
    content = pre ++ signature_11_3 ++ ws ++ headers_anchor ++ body
                ++ closing_11_3 ++ rest
    ∧ forallb is_space ws = true.

(** The matches of the pattern of fix #11.3, said without the pattern.
    The pattern matches at the start of [t]: *)
Definition request_at (t : str) : Prop :=
  ∃ ws body rest,
    t = signature_11_3 ++ ws ++ headers_anchor ++ body ++ closing_11_3 ++ rest
    ∧ forallb is_space ws = true.

(** The leftmost match in [c] is the signature after [pre], the white
    space [ws], the headers comment and [body] up to the first [});]:
    the pattern matches at no earlier place, and [});] does not end
    earlier behind the headers comment. *)
Definition first_request (c pre ws body rest : str) : Prop :=
  c = pre ++ signature_11_3 ++ ws ++ headers_anchor ++ body
        ++ closing_11_3 ++ rest
  ∧ forallb is_space ws = true
  ∧ (∀ p t, c = p ++ t → request_at t → length pre ≤ length p)
  ∧ (∀ p t, body ++ closing_11_3 ++ rest = p ++ closing_11_3 ++ t →
            length body ≤ length p).

(** [out] is [c] with every match replaced: the leftmost match is
    replaced by the signature, its white space and the fixed block, and
    so is every match in the text behind it, one after the other; a
    text without a match is kept. *)
Inductive every_request_replaced : str → str → Prop :=
  | no_request (c : str) :
      ¬ request_shape c → every_request_replaced c c
  | next_request (c pre ws body rest out : str) :
      first_request c pre ws body rest →
      every_request_replaced rest out →
      every_request_replaced c
        (pre ++ signature_11_3 ++ ws ++ block_11_3 ++ out).

(** The pattern of fix #11.1 from the guard on, and from the first [}]
    on. *)
Definition prog_11_1_closing : list op :=
  lits brace ++ MAX_REPEAT CATEGORY_SPACE :: lits brace
    ++ MARK 1 :: MAX_REPEAT CATEGORY_SPACE
    :: MARK 2 :: lits token_anchor ++ [MARK 3].

Definition prog_11_1_guard : list op :=
  lits guard_anchor ++ MIN_REPEAT ANY_ALL :: prog_11_1_closing.

(** The texts that these match at their start. *)
Definition closing_text (w1 w2 rest : str) : str :=
  brace ++ w1 ++ brace ++ w2 ++ token_anchor ++ rest.

Definition closing_shape (t : str) : Prop :=
  ∃ w1 w2 rest,
    t = closing_text w1 w2 rest
    ∧ forallb is_space w1 = true ∧ forallb is_space w2 = true.

Definition guard_shape (t : str) : Prop :=
  ∃ y u, t = guard_anchor ++ y ++ u ∧ closing_shape u.

Definition match_shape (t : str) : Prop :=
  ∃ x u, t = verify_anchor ++ x ++ u ∧ guard_shape u.

(** The leftmost match of the pattern of fix #11.1 in [c], as the search
    takes it: no match starts before [pre], and each lazy [.*?] stops at
    the first place from which the rest of the pattern can match. *)
Definition first_match (c pre x y w1 w2 rest : str) : Prop :=
  c = pre ++ verify_anchor ++ x ++ guard_anchor ++ y ++ closing_text w1 w2 rest
  ∧ forallb is_space w1 = true
  ∧ forallb is_space w2 = true
  ∧ (∀ p t, c = p ++ t → match_shape t → length pre ≤ length p)
  ∧ (∀ p t, x ++ guard_anchor ++ y ++ closing_text w1 w2 rest = p ++ t →
            guard_shape t → length x ≤ length p)
  ∧ (∀ p t, y ++ closing_text w1 w2 rest = p ++ t →
            closing_shape t → length y ≤ length p).

(** A text that no occurrence of the expression of fix #11.2 can touch,
    before or after the replacement: none can start in it or run into
    it, and it cannot overlap the shorter expression. *)
Definition untouched_11_2 (a : str) : bool :=
  no_start old_11_2 a && suffixes_clash old_11_2 a
  && suffixes_clash new_11_2 a && suffixes_clash (tail a) new_11_2.

End Script.

(** ** Sample files *)

Module Examples.
Import Text Re Script.

(** The route file of the end-to-end scenario for fix #11.1: the guard
    and the token comment, without the verification comment. *)
Definition guard_only : str := lit (join_lines [
  "if (!isValidPassword) { return res.status(401).send('invalid'); }";
  "}";
  "  // Generate JWT token"
]).

(** The same with a backslash and an [n] where the lines end. *)
Definition guard_only_raw : str :=
  lit "if (!isValidPassword) { return res.status(401).send('invalid'); }\n}\n  // Generate JWT token".

(** The scenario with the verification comment in front, and what fix
    #11.1 makes of it. *)
Definition guarded_login : str := lit (join_lines [
  "// Verify password";
  "if (!isValidPassword) { return res.status(401).send('invalid'); }";
  "}";
  "  // Generate JWT token"
]).

Definition guarded_login_fixed : str := lit (join_lines [
  "// Verify password";
  "if (!isValidPassword) { return res.status(401).send('invalid'); }";
  "}";
  "";
  "    // Set session userId for session-based auth";
  "    req.session.userId = user.id;";
  "";
  "    // Generate JWT token"
]).

(** A route file with two endpoints that generate a token; only the first
    verifies a password. *)
Definition two_endpoints : str := lit (join_lines [
  "app.post('/login', async (req, res) => {";
  "  // Verify password";
  "  if (!isValidPassword) {";
  "    if (strict) { return res.status(401).end(); }";
  "  }";
  "  // Generate JWT token";
  "  const token = sign(user);";
  "});";
  "app.post('/refresh', async (req, res) => {";
  "  if (!req.user) {";
  "    if (strict) { return res.status(401).end(); }";
  "  }";
  "  // Generate JWT token";
  "  const token = sign(req.user);";
  "});"
]).

(** What one and what two applications of fix #11.1 make of it. *)
Definition two_endpoints_once : str := lit (join_lines [
  "app.post('/login', async (req, res) => {";
  "  // Verify password";
  "  if (!isValidPassword) {";
  "    if (strict) { return res.status(401).end(); }";
  "  }";
  "";
  "    // Set session userId for session-based auth";
  "    req.session.userId = user.id;";
  "";
  "    // Generate JWT token";
  "  const token = sign(user);";
  "});";
  "app.post('/refresh', async (req, res) => {";
  "  if (!req.user) {";
  "    if (strict) { return res.status(401).end(); }";
  "  }";
  "  // Generate JWT token";
  "  const token = sign(req.user);";
  "});"
]).


(** A route file with the login endpoint only. *)
Definition one_endpoint : str := lit (join_lines [
  "app.post('/login', async (req, res) => {";
  "  // Verify password";
  "  if (!isValidPassword) {";
  "    if (strict) { return res.status(401).end(); }";
  "  }";
  "  // Generate JWT token";
  "  const token = sign(user);";
  "});"
]).

(** A route file in which an occurrence of the expression that fix #11.2
    replaces is followed by what the fix drops. *)
Definition chained_check : str :=
  lit "const id = req.session?.userId || req.user?.id || req.user?.id;".

(** A route file that only has the shorter expression. *)
Definition session_check : str := lit "const id = req.session?.userId;".

(** A route file with three occurrences. *)
Definition three_checks : str := lit (join_lines [
  "const a = req.session?.userId || req.user?.id;";
  "const b = req.session?.userId || req.user?.id;";
  "if (!(req.session?.userId || req.user?.id)) return;"
]).

(** A client file with one [apiRequest], and one with two. *)
Definition one_request : str := lit (join_lines [
  "export const apiRequest = async (url: string, options: RequestInit = {}) => {";
  "  // Build headers";
  "  const token = localStorage.getItem('token');";
  "  return fetch(url, { ...options, headers: auth(token) });";
  "};"
]).

Definition two_requests : str := one_request ++ lit nl ++ one_request.

(** Worlds to run the script in. *)
Definition both_files : world :=
  World Posix {[ routes_ts := text_file guard_only;
                 api_ts := text_file one_request ]} [].

Definition other_files : world :=
  World Posix {[ routes_ts := text_file two_endpoints;
                 api_ts := text_file two_requests;
                 "README.md" := text_file (lit "notes") ]} [].

(** Worlds that lack a file. *)
Definition no_files : world := World Posix ∅ ["earlier output"].

Definition routes_only : world :=
  World Posix {[ routes_ts := text_file two_endpoints ]} ["earlier output"].

(** A route file without the expression of fix #11.2 whose lines end
    with a carriage return and a line feed, and what is read from it. *)
Definition crlf_check : str :=
  lit "const id = req.session?.userId;" ++ [13%N; 10%N]
    ++ lit "next();" ++ [13%N; 10%N].

Definition crlf_check_text : str :=
  lit "const id = req.session?.userId;" ++ [10%N]
    ++ lit "next();" ++ [10%N].

Definition crlf_posix : world :=
  World Posix {[ routes_ts := text_file crlf_check;
                 api_ts := text_file one_request ]} [].

Definition crlf_windows : world :=
  World Windows {[ routes_ts := text_file crlf_check;
                   api_ts := text_file one_request ]} [].

(** Worlds in which both files exist, but the route file has bytes that
    do not decode, or may not be written. *)
Definition undecodable_routes : world :=
  World Posix {[ routes_ts := Regular true true Undecodable;
                 api_ts := text_file one_request ]} [].

Definition read_only_routes : world :=
  World Posix {[ routes_ts := Regular true false (Text guard_only);
                 api_ts := text_file one_request ]} [].

(** A route file with the guard and the token comment of [one_endpoint],
    but without the verification comment. *)
Definition unverified_endpoint : str := lit (join_lines [
  "app.post('/login', async (req, res) => {";
  "  if (!isValidPassword) {";
  "    if (strict) { return res.status(401).end(); }";
  "  }";
  "  // Generate JWT token";
  "  const token = sign(user);";
  "});"
]).

End Examples.

(** ** Facts about text *)

Module TextFacts.
Import Text.


Lemma startswith_app (p t : str) : startswith p (p ++ t) = true.
Proof.
  induction p as [|a p IH]; simpl; [done|].
  by rewrite N.eqb_refl.
Qed.

Lemma startswith_inv (p s : str) :
  startswith p s = true → s = p ++ drop (length p) s.
Proof.
  revert s. induction p as [|a p IH]; intros [|b s]; simpl; try done.
  intros [Hab Hps]%andb_prop. apply N.eqb_eq in Hab as ->.
  f_equal. by apply IH.
Qed.

Lemma startswith_iff (p s : str) :
  startswith p s = true ↔ ∃ t, s = p ++ t.
Proof.
  split.
  - intros H. eexists. by apply startswith_inv.
  - intros [t ->]. apply startswith_app.
Qed.

Lemma startswith_app_r (p s t : str) :
  startswith p s = true → startswith p (s ++ t) = true.
Proof.
  intros [u ->]%startswith_iff. rewrite <- app_assoc. apply startswith_app.
Qed.

Lemma startswith_long (p x t : str) :
  length p ≤ length x → startswith p (x ++ t) = startswith p x.
Proof.
  revert x. induction p as [|a p IH]; intros [|b x]; simpl; try done; [lia|].
  intros H. rewrite IH; [done|lia].
Qed.

Lemma startswith_trans (p q s : str) :
  startswith p q = true → startswith q s = true → startswith p s = true.
Proof.
  intros [u ->]%startswith_iff [t ->]%startswith_iff.
  rewrite <- app_assoc. apply startswith_app.
Qed.

Lemma mismatch_startswith (p x t : str) :
  mismatch p x = true → startswith p (x ++ t) = false.
Proof.
  revert x. induction p as [|a p IH]; intros [|b x]; simpl; try done.
  destruct (N.eqb a b); simpl; [apply IH | done].
Qed.


Lemma occurrences_app (p u t : str) :
  occurrences p (u ++ t) = occ_in p u t + occurrences p t.
Proof.
  induction u as [|c u IH]; [done|].
  cbn [app occ_in]. cbn [occurrences]. rewrite IH. lia.
Qed.

Lemma no_start_occ_in (p u t : str) : no_start p u = true → occ_in p u t = 0.
Proof.
  induction u as [|c u IH]; [done|].
  cbn [no_start occ_in]. intros [Hm Hn]%andb_prop.
  by rewrite (mismatch_startswith _ _ _ Hm), IH.
Qed.

Lemma occurrences_zero (p s : str) :
  occurrences p s = 0 ↔ ∀ i, startswith p (drop i s) = false.
Proof.
  induction s as [|c s IH].
  - cbn [occurrences]. split.
    + intros H i. rewrite drop_nil. destruct (startswith p []); [lia | done].
    + intros H. specialize (H 0). simpl in H. rewrite H. done.
  - cbn [occurrences]. split.
    + intros H i. destruct (startswith p (c :: s)) eqn:E; [lia|].
      destruct i as [|i]; [done|]. simpl. apply IH. lia.
    + intros H. pose proof (H 0) as H0. simpl in H0. rewrite H0.
      simpl. apply IH. intros i. apply (H (S i)).
Qed.


Lemma occurrences_pos_inv (p s : str) :
  0 < occurrences p s → ∃ i, startswith p (drop i s) = true.
Proof.
  induction s as [|c s IH]; cbn [occurrences].
  - destruct (startswith p []) eqn:E; [|lia]. by exists 0.
  - destruct (startswith p (c :: s)) eqn:E; [by exists 0|].
    intros H. destruct IH as [i Hi]; [lia|]. by exists (S i).
Qed.

Lemma contains_iff (p s : str) :
  contains p s = true ↔ ∃ u v, s = u ++ p ++ v.
Proof.
  unfold contains. rewrite negb_true_iff, Nat.eqb_neq. split.
  - intros H. destruct (occurrences_pos_inv p s) as [i Hi]; [lia|].
    apply startswith_iff in Hi as [v Hv].
    exists (take i s), v. by rewrite <- Hv, take_drop.
  - intros (u & v & ->) H. rewrite occurrences_zero in H.
    specialize (H (length u)). rewrite drop_app_length in H.
    by rewrite startswith_app in H.
Qed.

(** Where [p] begins with [q], [q] occurs wherever [p] does. *)
Lemma occurrences_prefix (q p s : str) :
  startswith q p = true → occurrences p s ≤ occurrences q s.
Proof.
  intros Hq.
  assert (∀ x, (if startswith p x then 1 else 0) ≤ (if startswith q x then 1 else 0)) as Hle.
  { intros x. destruct (startswith p x) eqn:E; [|lia].
    by rewrite (startswith_trans _ _ _ Hq E). }
  induction s as [|c s IH]; cbn [occurrences].
  - specialize (Hle []). lia.
  - specialize (Hle (c :: s)). lia.
Qed.






Lemma occ_in_zero (p u t : str) (i : nat) :
  occ_in p u t = 0 → i < length u → startswith p (drop i (u ++ t)) = false.
Proof.
  revert i. induction u as [|c u IH]; intros i H Hi; [simpl in Hi; lia|].
  cbn [occ_in] in H.
  destruct (startswith p ((c :: u) ++ t)) eqn:E; [lia|].
  destruct i as [|i]; [done|]. simpl. apply IH; [lia | simpl in Hi; lia].
Qed.

(** Every non-empty suffix of [u] clashes with [x]. *)
Lemma suffixes_clash_suffix (u x a l : str) :
  suffixes_clash u x = true → u = a ++ l → l ≠ [] → mismatch l x = true.
Proof.
  revert u. induction a as [|c a IH]; intros u H -> Hl.
  - destruct l as [|d l]; [done|]. simpl in H. by apply andb_prop in H as [H _].
  - simpl in H. apply andb_prop in H as [_ H]. by apply (IH (a ++ l)).
Qed.

(** A text that clashes with [x] is not the beginning of a text that
    [x] begins. *)
Lemma mismatch_app_neq (l x t t' : str) :
  mismatch l x = true → x ++ t ≠ l ++ t'.
Proof.
  intros Hm E. pose proof (mismatch_startswith _ _ t Hm) as H.
  rewrite E in H. by rewrite startswith_app in H.
Qed.

(** Two ways to split a text into white space (or any class [f]) and a
    rest that does not begin with it agree. *)
Lemma span_unique (f : char → bool) (w w' t t' : str) :
  w ++ t = w' ++ t' →
  forallb f w = true → forallb f w' = true →
  (∀ c r, t = c :: r → f c = false) → (∀ c r, t' = c :: r → f c = false) →
  w = w' ∧ t = t'.
Proof.
  revert w'. induction w as [|a w IH]; intros [|a' w'] E Hw Hw' Ht Ht';
    simplify_eq/=.
  - done.
  - apply andb_prop in Hw' as [Ha _]. by rewrite (Ht a' (w' ++ t') eq_refl) in Ha.
  - apply andb_prop in Hw as [Ha _]. by rewrite (Ht' a (w ++ t) eq_refl) in Ha.
  - apply andb_prop in Hw as [_ Hw]. apply andb_prop in Hw' as [_ Hw'].
    destruct (IH w' H0 Hw Hw' Ht Ht') as [-> ->]. done.
Qed.

(** Two ways to cut a text, the first cut not after the second. *)
Lemma app_eq_prefix (x x' a a' : str) :
  x ++ a = x' ++ a' → length x ≤ length x' →
  ∃ e, x' = x ++ e ∧ a = e ++ a'.
Proof.
  intros E Hlen. apply app_eq_app in E as [l [[-> ->]|[-> ->]]].
  - rewrite length_app in Hlen. destruct l; [|simpl in Hlen; lia].
    exists []. by rewrite !app_nil_r.
  - by exists l.
Qed.

(** A text that clashes with every non-empty suffix of [p] keeps [p]
    from starting before it and running into it. *)
Lemma startswith_clash_app (p a x v : str) :
  suffixes_clash p a = true →
  startswith p (x ++ a ++ v) = startswith p x.
Proof.
  revert p. induction x as [|d x IH]; intros p Hp.
  - destruct p as [|c p]; [done|]. cbn [suffixes_clash] in Hp.
    apply andb_prop in Hp as [Hm _]. cbn [app].
    by rewrite (mismatch_startswith _ _ _ Hm).
  - destruct p as [|c p]; [done|]. cbn [suffixes_clash] in Hp.
    apply andb_prop in Hp as [_ Hp]. cbn [app startswith].
    by rewrite IH.
Qed.

Lemma forallb_take (f : char → bool) (n : nat) (s : str) :
  forallb f s = true → forallb f (take n s) = true.
Proof.
  revert n. induction s as [|c s IH]; intros [|n]; cbn; try done.
  intros [-> Hs]%andb_prop. by apply IH.
Qed.

Lemma forallb_drop (f : char → bool) (n : nat) (s : str) :
  forallb f s = true → forallb f (drop n s) = true.
Proof.
  revert n. induction s as [|c s IH]; intros [|n]; cbn; try done.
  intros [_ Hs]%andb_prop. by apply IH.
Qed.

End TextFacts.

(** ** Facts about [str.replace] *)

Module ReplaceFacts.
Import Text TextFacts.

Lemma replace_scan_skip (old new u t : str) :
  replace_scan old new (length u) (u ++ t) = replace_scan old new 0 t.
Proof. induction u as [|c u IH]; [done|]. simpl. apply IH. Qed.

Lemma str_replace_nil (old new : str) :
  old ≠ [] → str_replace old new [] = [].
Proof. by destruct old. Qed.

Lemma str_replace_hit (old new t : str) :
  old ≠ [] → str_replace old new (old ++ t) = new ++ str_replace old new t.
Proof.
  intros Hne. destruct old as [|a o]; [done|].
  unfold str_replace. cbn [app replace_scan].
  change (a :: o ++ t) with ((a :: o) ++ t). rewrite startswith_app.
  cbn [length]. rewrite Nat.sub_succ, Nat.sub_0_r.
  by rewrite replace_scan_skip.
Qed.

Lemma str_replace_miss (old new : str) (c : char) (t : str) :
  old ≠ [] → startswith old (c :: t) = false →
  str_replace old new (c :: t) = c :: str_replace old new t.
Proof.
  intros Hne H. destruct old as [|a o]; [done|].
  unfold str_replace. cbn [replace_scan]. by rewrite H.
Qed.

(** Induction along the scan. *)
Lemma scan_ind (old : str) (P : str → Prop) :
  old ≠ [] →
  P [] →
  (∀ t, P t → P (old ++ t)) →
  (∀ c t, startswith old (c :: t) = false → P t → P (c :: t)) →
  ∀ s, P s.
Proof.
  intros Hne Hnil Hhit Hmiss s.
  induction s as [s IH] using (induction_ltof1 _ (@length char)).
  unfold ltof in IH. destruct s as [|c t]; [done|].
  destruct (startswith old (c :: t)) eqn:E.
  - rewrite (startswith_inv _ _ E). apply Hhit, IH.
    rewrite length_drop. destruct old; [done|]. simpl. lia.
  - apply Hmiss; [done|]. apply IH. simpl. lia.
Qed.

(** Without an occurrence nothing changes. *)
Lemma str_replace_absent (old new s : str) :
  occurrences old s = 0 → str_replace old new s = s.
Proof.
  intros H. assert (old ≠ []) as Hne.
  { intros ->. by destruct s. }
  induction s as [|c s IH]; [by apply str_replace_nil|].
  cbn [occurrences] in H.
  destruct (startswith old (c :: s)) eqn:E; [lia|].
  rewrite str_replace_miss by done. f_equal. apply IH. lia.
Qed.

(** The occurrences of [p] in [old ++ t] when [old] starts with [p] and
    no other occurrence of [p] can start inside [old]. *)
Lemma occurrences_hit (old p t : str) :
  old ≠ [] → startswith p old = true → no_start p (tail old) = true →
  occurrences p (old ++ t) = S (occurrences p t).
Proof.
  intros Hne Hp Hn. destruct old as [|a o]; [done|].
  change ((a :: o) ++ t) with (a :: (o ++ t)). cbn [occurrences].
  change (a :: (o ++ t)) with ((a :: o) ++ t).
  rewrite (startswith_app_r _ _ _ Hp), occurrences_app.
  simpl in Hn. by rewrite (no_start_occ_in _ _ _ Hn).
Qed.

Lemma occurrences_nil (p : str) : p ≠ [] → occurrences p [] = 0.
Proof. by destruct p. Qed.

(** When [old] cannot overlap itself the scan meets every occurrence. *)
Lemma str_replace_length (old new s : str) :
  old ≠ [] → no_start old (tail old) = true →
  length s + length new * occurrences old s
  = length (str_replace old new s) + length old * occurrences old s.
Proof.
  intros Hne Hn. revert s.
  apply (scan_ind old); [done | | intros t IH | intros c t E IH].
  - rewrite str_replace_nil, occurrences_nil by done. simpl. lia.
  - rewrite str_replace_hit, (occurrences_hit old old), !length_app;
      [lia | done | | done | done].
    rewrite <- (app_nil_r old) at 2. apply startswith_app.
  - rewrite str_replace_miss by done. cbn [occurrences]. rewrite E.
    simpl. lia.
Qed.

Lemma startswith_refl (p : str) : startswith p p = true.
Proof. rewrite <- (app_nil_r p) at 2. apply startswith_app. Qed.

Lemma count_scan_skip (p u t : str) :
  count_scan p (length u) (u ++ t) = count_scan p 0 t.
Proof. induction u as [|c u IH]; [done|]. simpl. apply IH. Qed.

(** For a [p] that cannot overlap itself, [s.count(p)] is the number of
    positions at which [p] occurs. *)
Lemma str_count_occurrences (p s : str) :
  p ≠ [] → no_start p (tail p) = true →
  str_count p s = occurrences p s.
Proof.
  intros Hne Hn. assert (str_count p s = count_scan p 0 s) as ->
    by (by destruct p).
  revert s. apply (scan_ind p); [done | | intros t IH | intros c t E IH].
  - by rewrite occurrences_nil.
  - rewrite (occurrences_hit p p), <- IH; [| done | apply startswith_refl | done].
    destruct p as [|a o]; [done|]. cbn [app count_scan].
    change (a :: o ++ t) with ((a :: o) ++ t). rewrite startswith_app.
    cbn [length]. by rewrite Nat.sub_succ, Nat.sub_0_r, count_scan_skip.
  - cbn [count_scan occurrences]. by rewrite E, IH.
Qed.

Lemma startswith_app_cancel (u p s : str) :
  startswith (u ++ p) (u ++ s) = startswith p s.
Proof. induction u as [|c u IH]; [done|]. simpl. by rewrite N.eqb_refl. Qed.

(** The occurrences of [p] in [u ++ t] when none but the first can start
    inside [u]. *)
Lemma occurrences_block (p u t : str) :
  u ≠ [] → no_start p (tail u) = true →
  occurrences p (u ++ t)
  = (if startswith p (u ++ t) then 1 else 0) + occurrences p t.
Proof.
  intros Hne Hn. destruct u as [|a o]; [done|].
  change ((a :: o) ++ t) with (a :: (o ++ t)). cbn [occurrences].
  rewrite occurrences_app. simpl in Hn. by rewrite (no_start_occ_in _ _ _ Hn).
Qed.

(** *** Replacing [new ++ tl] by its own beginning [new] *)

(** Whether the text starts with a [p] no longer than [new] is not
    affected. *)
Lemma startswith_replace_short (new tl p s : str) :
  new ≠ [] → length p ≤ length new →
  startswith p (str_replace (new ++ tl) new s) = startswith p s.
Proof.
  intros Hne. assert (new ++ tl ≠ []) as Hold by (by destruct new).
  revert s. induction p as [|a p IH]; intros s Hlen; [done|].
  destruct s as [|c t]; [by rewrite str_replace_nil|].
  destruct (startswith (new ++ tl) (c :: t)) eqn:E.
  - apply startswith_iff in E as [v ->].
    rewrite str_replace_hit by done. rewrite <- app_assoc.
    by rewrite !startswith_long.
  - rewrite str_replace_miss by done. simpl. rewrite IH; [done|].
    simpl in Hlen. lia.
Qed.

(** A [u] all of whose suffixes clash with [new] is found at the start
    of the result only where it was at the start of the text. *)
Lemma startswith_replace_clash (new tl u s : str) :
  new ≠ [] → suffixes_clash u new = true →
  startswith u (str_replace (new ++ tl) new s) = true →
  startswith u s = true.
Proof.
  intros Hne. assert (new ++ tl ≠ []) as Hold by (by destruct new).
  revert s. induction u as [|a u IH]; intros s Hc H; [done|].
  cbn [suffixes_clash] in Hc. apply andb_prop in Hc as [Hm Hc].
  destruct s as [|c t]; [by rewrite str_replace_nil in H|].
  destruct (startswith (new ++ tl) (c :: t)) eqn:E.
  - apply startswith_iff in E as [v E]. rewrite E in H.
    rewrite str_replace_hit in H by done.
    by rewrite (mismatch_startswith _ _ _ Hm) in H.
  - rewrite str_replace_miss in H by done. simpl in H |- *.
    apply andb_prop in H as [-> H]. simpl. by apply IH.
Qed.

(** The occurrences of [new] are those of the text. *)
Lemma occurrences_new_replace (new tl s : str) :
  new ≠ [] →
  no_start new (tail new) = true →
  no_start new (tail (new ++ tl)) = true →
  occurrences new (str_replace (new ++ tl) new s) = occurrences new s.
Proof.
  intros Hne Hn Ho. assert (new ++ tl ≠ []) as Hold by (by destruct new).
  revert s. apply (scan_ind (new ++ tl)); [done | | intros t IH | intros c t E IH].
  - by rewrite str_replace_nil.
  - rewrite str_replace_hit by done.
    rewrite (occurrences_hit new new), (occurrences_hit (new ++ tl) new);
      auto using startswith_refl, startswith_app.
  - rewrite str_replace_miss by done. cbn [occurrences]. rewrite IH.
    rewrite <- (str_replace_miss (new ++ tl) new) by done.
    by rewrite startswith_replace_short.
Qed.

(** The occurrences of [new ++ tl] in the result come from the
    occurrences of [new ++ tl ++ tl] in the text. *)
Lemma occurrences_old_replace (new tl s : str) :
  new ≠ [] → length tl ≤ length new →
  no_start (new ++ tl) (tail new) = true →
  no_start ((new ++ tl) ++ tl) (tail (new ++ tl)) = true →
  suffixes_clash (tail (new ++ tl)) new = true →
  occurrences (new ++ tl) (str_replace (new ++ tl) new s)
  = occurrences ((new ++ tl) ++ tl) s.
Proof.
  intros Hne Hlen Hn Ho Hc.
  assert (new ++ tl ≠ []) as Hold by (by destruct new).
  assert ((new ++ tl) ++ tl ≠ []) as Hold2 by (by destruct new).
  revert s. apply (scan_ind (new ++ tl)); [done | | intros t IH | intros c t E IH].
  - by rewrite str_replace_nil, !occurrences_nil.
  - rewrite str_replace_hit by done.
    rewrite (occurrences_block _ new), (occurrences_block _ (new ++ tl)) by done.
    rewrite !startswith_app_cancel, startswith_replace_short by done.
    by rewrite IH.
  - rewrite str_replace_miss by done. cbn [occurrences]. rewrite IH.
    f_equal.
    assert (startswith ((new ++ tl) ++ tl) (c :: t) = false) as ->.
    { apply not_true_is_false. intros E2. rewrite <- not_true_iff_false in E.
      apply E, (startswith_trans _ ((new ++ tl) ++ tl)); [apply startswith_app | done]. }
    assert (startswith (new ++ tl) (c :: str_replace (new ++ tl) new t) = false) as ->; [|done].
    apply not_true_is_false. intros E2. rewrite <- not_true_iff_false in E.
    apply E. destruct new as [|a n]; [done|].
    simpl in E2 |- *. apply andb_prop in E2 as [-> E2]. simpl.
    by apply (startswith_replace_clash (a :: n) tl).
Qed.

(** *** Texts that the replacement passes by *)

(** The replacement works on both sides of a cut that no occurrence of
    [old] runs over. *)
Lemma str_replace_app (old new u t : str) :
  old ≠ [] →
  (∀ x, startswith old (x ++ t) = startswith old x) →
  str_replace old new (u ++ t)
  = str_replace old new u ++ str_replace old new t.
Proof.
  intros Hne Hcut. revert u.
  apply (scan_ind old); [done | | intros u IH | intros c u E IH].
  - by rewrite str_replace_nil.
  - by rewrite <- app_assoc, !str_replace_hit, IH, app_assoc.
  - assert (startswith old ((c :: u) ++ t) = false) as E2 by (by rewrite Hcut).
    cbn [app] in E2 |- *.
    rewrite (str_replace_miss old new c (u ++ t)) by done.
    rewrite (str_replace_miss old new c u) by done. by rewrite IH.
Qed.

(** A text in which no occurrence of [old] can start is copied. *)
Lemma str_replace_head (old new a v : str) :
  old ≠ [] → no_start old a = true →
  str_replace old new (a ++ v) = a ++ str_replace old new v.
Proof.
  intros Hne. induction a as [|c a IH]; intros Ha; [done|].
  cbn [no_start] in Ha. apply andb_prop in Ha as [Hm Ha].
  assert (startswith old ((c :: a) ++ v) = false) as E
    by (by apply mismatch_startswith).
  cbn [app] in E |- *. rewrite str_replace_miss by done. by rewrite IH.
Qed.

(** A text that no occurrence of [old] can touch is copied, and the
    replacement works on both sides of it. *)
Lemma str_replace_around (old new u a v : str) :
  old ≠ [] → no_start old a = true → suffixes_clash old a = true →
  str_replace old new (u ++ a ++ v)
  = str_replace old new u ++ a ++ str_replace old new v.
Proof.
  intros Hne Ha Hc. rewrite str_replace_app, str_replace_head; [done..|].
  intros x. by apply startswith_clash_app.
Qed.

Lemma str_replace_nil_inv (old new s : str) :
  old ≠ [] → new ≠ [] → str_replace old new s = [] → s = [].
Proof.
  intros Ho Hn. destruct s as [|c s]; [done|].
  destruct (startswith old (c :: s)) eqn:E.
  - apply startswith_iff in E as [v ->]. rewrite str_replace_hit by done.
    by destruct new.
  - by rewrite str_replace_miss.
Qed.

(** Where such a text stands in the result, it stood in the text, with
    the results of what was before and after it on its sides. *)
Lemma str_replace_split_back (new tl a s u v : str) :
  new ≠ [] → a ≠ [] →
  no_start (new ++ tl) a = true →
  suffixes_clash new a = true →
  suffixes_clash (tail a) new = true →
  str_replace (new ++ tl) new s = u ++ a ++ v →
  ∃ u' v',
    s = u' ++ a ++ v'
    ∧ str_replace (new ++ tl) new u' = u
    ∧ str_replace (new ++ tl) new v' = v.
Proof.
  intros Hn Ha Hstart Hna Han.
  assert (new ++ tl ≠ []) as Hold by (by destruct new).
  revert s u. apply (scan_ind (new ++ tl) (λ s, ∀ u, _ → _));
    [done | | intros t IH | intros c t E IH]; intros u Hs.
  - rewrite str_replace_nil in Hs by done. by destruct u, a.
  - rewrite str_replace_hit in Hs by done.
    apply app_eq_app in Hs as [l [[E1 E2]|[E1 E2]]].
    + destruct l as [|d l].
      * rewrite app_nil_r in E1. simpl in E2.
        destruct (IH [] (eq_sym E2)) as (u' & v' & -> & Hu & Hv).
        exists ((new ++ tl) ++ u'), v'.
        split_and!; [by rewrite <- !app_assoc | | done].
        by rewrite str_replace_hit, Hu, app_nil_r.
      * exfalso. apply (mismatch_app_neq (d :: l) a v
                          (str_replace (new ++ tl) new t)); [|done].
        by apply (suffixes_clash_suffix new a u (d :: l)).
    + subst u. destruct (IH l E2) as (u' & v' & -> & Hu & Hv).
      exists ((new ++ tl) ++ u'), v'.
      split_and!; [by rewrite <- !app_assoc | | done].
      by rewrite str_replace_hit, Hu.
  - rewrite str_replace_miss in Hs by done. destruct u as [|d u].
    + destruct a as [|d a]; [done|]. cbn [app tail] in Hs, Han.
      injection Hs as <- Hs.
      assert (startswith a t = true) as [v' ->]%startswith_iff.
      { apply (startswith_replace_clash new tl); [done | done |].
        rewrite Hs. apply startswith_app. }
      cbn [no_start] in Hstart. apply andb_prop in Hstart as [_ Hstart].
      rewrite str_replace_head in Hs by done. apply app_inv_head in Hs.
      exists [], v'. by rewrite str_replace_nil.
    + cbn [app] in Hs. injection Hs as <- Hs.
      destruct (IH u Hs) as (u' & v' & -> & Hu & Hv).
      exists (c :: u'), v'. split_and!; [done | | done].
      rewrite str_replace_miss, Hu; [done | done |].
      apply not_true_is_false. intros Hst. rewrite <- not_true_iff_false in E.
      apply E. change (c :: u' ++ a ++ v') with ((c :: u') ++ a ++ v').
      by apply startswith_app_r.
Qed.

(** Of two places at which a text that the replacement cannot touch, and
    that cannot overlap itself, occurs, the earlier one stays the earlier
    one after the replacement. *)
Lemma str_replace_prefix_lt (old new a u v u' v' : str) :
  old ≠ [] → a ≠ [] →
  no_start old a = true → suffixes_clash old a = true →
  suffixes_clash (tail a) a = true →
  u ++ a ++ v = u' ++ a ++ v' → length u < length u' →
  length (str_replace old new u) < length (str_replace old new u').
Proof.
  intros Hne Ha Hns Hsc Hub E Hlt.
  destruct (app_eq_prefix u u' (a ++ v) (a ++ v') E) as (e & -> & E1); [lia|].
  rewrite length_app in Hlt.
  destruct (decide (length a ≤ length e)) as [Hle|Hgt].
  - destruct (app_eq_prefix a e v (a ++ v') E1 Hle) as (e' & -> & _).
    rewrite str_replace_around, !length_app by done.
    destruct a; [done|]. simpl. lia.
  - destruct (app_eq_prefix e a (a ++ v') v (eq_sym E1)) as (f & Hf & E2); [lia|].
    exfalso. destruct e as [|c e]; [simpl in Hlt; lia|].
    assert (f ≠ []) as Hfne.
    { intros ->. rewrite Hf, app_nil_r in Hgt. lia. }
    assert (mismatch f a = true) as Hm.
    { apply (suffixes_clash_suffix (tail a) a e f); [done | by rewrite Hf | done]. }
    by apply (mismatch_app_neq f a v' v Hm).
Qed.

(** The replacement brings in no character but those of [new]. *)
Lemma forallb_str_replace (f : char → bool) (old new s : str) :
  old ≠ [] → forallb f new = true → forallb f s = true →
  forallb f (str_replace old new s) = true.
Proof.
  intros Hne Hnew. revert s.
  apply (scan_ind old (λ s, forallb f s = true →
                            forallb f (str_replace old new s) = true));
    [done | by rewrite str_replace_nil | |].
  - intros t IH. rewrite str_replace_hit, !forallb_app by done.
    intros [_ Ht]%andb_prop. by rewrite Hnew, IH.
  - intros c t Hc IH. rewrite str_replace_miss by done. cbn [forallb].
    intros [-> Ht]%andb_prop. by rewrite IH.
Qed.

End ReplaceFacts.

(** ** Facts about the matcher and about [re.sub] *)

Module ReFacts.
Import Text TextFacts Re.

Lemma sre_match_lits (l : str) (prog : list op) (ma : bool) (m : marks)
    (n : nat) (s : str) :
  sre_match (lits l ++ prog) ma m n s
  = if startswith l s
    then sre_match prog ma m (n + length l) (drop (length l) s)
    else None.
Proof.
  revert n s. induction l as [|a l IH]; intros n s.
  - simpl. by rewrite Nat.add_0_r.
  - destruct s as [|c s]; [done|]. cbn [lits fmap list_fmap app sre_match in_cls].
    cbn [startswith]. destruct (N.eqb a c); [|done]. cbn [andb].
    fold (lits l). rewrite IH. cbn [length drop]. by rewrite Nat.add_succ_r.
Qed.

(** The repetition took no character. *)
Local Ltac take_none :=
  exists 0; rewrite Nat.add_0_r; split_and!; [simpl; lia | done | done].

Section Repeat.
Context {R : Type}.
Variable k : cls.
Variable rest : nat → str → option R.

(** A repetition that succeeds has taken some [j] characters of the
    class and what follows has succeeded on the remainder. *)
Lemma min_repeat_sound (n : nat) (s : str) (r : R) :
  min_repeat k rest n s = Some r →
  ∃ j, j ≤ length s ∧ forallb (in_cls k) (take j s) = true
       ∧ rest (n + j) (drop j s) = Some r.
Proof.
  revert n. induction s as [|c s IH]; intros n; cbn [min_repeat].
  - destruct (rest n []) eqn:E; [|done]. intros [= ->].
    take_none.
  - destruct (rest n (c :: s)) eqn:E.
    + intros [= ->]. take_none.
    + destruct (in_cls k c) eqn:Ec; [|done].
      intros (j & Hj & Hall & Hr)%IH. exists (S j).
      cbn [take drop forallb length]. rewrite Ec, Hall, Nat.add_succ_r.
      split; [lia | done].
Qed.

Lemma max_repeat_sound (n : nat) (s : str) (r : R) :
  max_repeat k rest n s = Some r →
  ∃ j, j ≤ length s ∧ forallb (in_cls k) (take j s) = true
       ∧ rest (n + j) (drop j s) = Some r.
Proof.
  revert n. induction s as [|c s IH]; intros n; cbn [max_repeat].
  - intros E. take_none.
  - destruct (in_cls k c) eqn:Ec.
    + destruct (max_repeat k rest (S n) s) eqn:E.
      * intros [= ->]. apply IH in E as (j & Hj & Hall & Hr). exists (S j).
        cbn [take drop forallb length]. rewrite Ec, Hall, Nat.add_succ_r.
        split; [lia | done].
      * intros E'. take_none.
    + intros E. take_none.
Qed.
(** Conversely, a repetition succeeds as soon as what follows can
    succeed after some characters of the class. *)
Lemma min_repeat_complete (n : nat) (w t : str) :
  forallb (in_cls k) w = true → is_Some (rest (n + length w) t) →
  is_Some (min_repeat k rest n (w ++ t)).
Proof.
  revert n. induction w as [|c w IH]; intros n Hw Hr.
  - rewrite Nat.add_0_r in Hr. destruct t; cbn [app min_repeat];
      by destruct Hr as [r ->].
  - cbn [app min_repeat]. destruct (rest n (c :: w ++ t)); [done|].
    cbn [forallb] in Hw. apply andb_prop in Hw as [-> Hw].
    apply IH; [done|]. cbn [length] in Hr. by rewrite Nat.add_succ_r in Hr.
Qed.

Lemma max_repeat_complete (n : nat) (w t : str) :
  forallb (in_cls k) w = true → is_Some (rest (n + length w) t) →
  is_Some (max_repeat k rest n (w ++ t)).
Proof.
  revert n. induction w as [|c w IH]; intros n Hw Hr.
  - rewrite Nat.add_0_r in Hr. destruct Hr as [r Hr].
    destruct t as [|c t]; cbn [app max_repeat]; [by rewrite Hr|].
    destruct (in_cls k c); [|by rewrite Hr].
    destruct (max_repeat k rest (S n) t); [done | by rewrite Hr].
  - cbn [app max_repeat]. cbn [forallb] in Hw. apply andb_prop in Hw as [-> Hw].
    cbn [length] in Hr. rewrite Nat.add_succ_r in Hr.
    destruct (IH (S n) Hw Hr) as [r ->]. done.
Qed.

(** The lazy repetition stops at the first place where what follows
    succeeds. *)
Lemma min_repeat_exact (n : nat) (w t : str) (r : R) :
  forallb (in_cls k) w = true →
  (∀ i, i < length w → rest (n + i) (drop i (w ++ t)) = None) →
  rest (n + length w) t = Some r →
  min_repeat k rest n (w ++ t) = Some r.
Proof.
  revert n. induction w as [|c w IH]; intros n Hw Hnone Hr.
  - rewrite Nat.add_0_r in Hr. destruct t; cbn [app min_repeat]; by rewrite Hr.
  - cbn [app min_repeat].
    pose proof (Hnone 0 ltac:(simpl; lia)) as H0.
    rewrite Nat.add_0_r in H0. cbn [drop app] in H0. rewrite H0.
    cbn [forallb] in Hw. apply andb_prop in Hw as [-> Hw].
    apply IH; [done | | cbn [length] in Hr; by rewrite Nat.add_succ_r in Hr].
    intros i Hi. specialize (Hnone (S i) ltac:(simpl; lia)).
    by rewrite Nat.add_succ_r in Hnone.
Qed.

(** The greedy repetition takes all characters of the class when what
    follows succeeds after them. *)
Lemma max_repeat_exact (n : nat) (w t : str) (r : R) :
  forallb (in_cls k) w = true →
  (∀ c t', t = c :: t' → in_cls k c = false) →
  rest (n + length w) t = Some r →
  max_repeat k rest n (w ++ t) = Some r.
Proof.
  revert n. induction w as [|c w IH]; intros n Hw Ht Hr.
  - rewrite Nat.add_0_r in Hr. destruct t as [|c t]; cbn [app max_repeat]; [done|].
    by rewrite (Ht c t eq_refl).
  - cbn [app max_repeat]. cbn [forallb] in Hw. apply andb_prop in Hw as [-> Hw].
    cbn [length] in Hr. rewrite Nat.add_succ_r in Hr.
    by rewrite (IH (S n) Hw Ht Hr).
Qed.
(** The lazy repetition has tried what follows at every earlier place. *)
Lemma min_repeat_first (n : nat) (s : str) (r : R) :
  min_repeat k rest n s = Some r →
  ∃ w t, s = w ++ t ∧ forallb (in_cls k) w = true
         ∧ rest (n + length w) t = Some r
         ∧ ∀ i, i < length w → rest (n + i) (drop i s) = None.
Proof.
  revert n. induction s as [|c s IH]; intros n; cbn [min_repeat].
  - destruct (rest n []) eqn:E; [|done]. intros [= ->].
    exists [], []. rewrite Nat.add_0_r. split_and!; [done..|].
    intros i Hi. simpl in Hi. lia.
  - destruct (rest n (c :: s)) eqn:E.
    + intros [= ->]. exists [], (c :: s). rewrite Nat.add_0_r.
      split_and!; [done..|]. intros i Hi. simpl in Hi. lia.
    + destruct (in_cls k c) eqn:Ec; [|done].
      intros (w & t & -> & Hw & Hr & Hfirst)%IH. exists (c :: w), t.
      cbn [forallb length]. rewrite Ec, Hw, Nat.add_succ_r.
      split_and!; [done..|]. intros [|i] Hi.
      * by rewrite Nat.add_0_r.
      * rewrite Nat.add_succ_r. apply Hfirst. lia.
Qed.
End Repeat.

(** A match consumes no more than the text, and something when it must
    advance. *)
Lemma sre_match_bounds (prog : list op) (ma : bool) (m : marks) (n : nat)
    (s : str) (n' : nat) (m' : marks) :
  sre_match prog ma m n s = Some (n', m') →
  n ≤ n' ≤ n + length s ∧ (ma = true → n' ≠ 0).
Proof.
  revert m n s. induction prog as [|o prog IH]; intros m n s; cbn [sre_match].
  - destruct ma, n; simpl; intros [= <- <-]; split; (lia || done).
  - destruct o as [k|k|k|i].
    + destruct s as [|c s]; [done|]. destruct (in_cls k c); [|done].
      intros [H1 H2]%IH. simpl. split; [lia | done].
    + intros (j & Hj & _ & [H1 H2]%IH)%min_repeat_sound.
      rewrite length_drop in H1. split; [lia | done].
    + intros (j & Hj & _ & [H1 H2]%IH)%max_repeat_sound.
      rewrite length_drop in H1. split; [lia | done].
    + intros [H1 H2]%IH. done.
Qed.

(** What [sre_search] finds is a match at the position it reports. *)
Lemma sre_search_sound (prog : list op) (ma : bool) (s : str)
    (b n : nat) (m : marks) :
  sre_search prog ma s = Some (b, n, m) →
  b ≤ length s
  ∧ sre_match prog (ma && Nat.eqb b 0) ∅ 0 (drop b s) = Some (n, m).
Proof.
  revert ma b. induction s as [|c s IH]; intros ma b; cbn [sre_search].
  - destruct (sre_match prog ma ∅ 0 []) as [[n0 m0]|] eqn:E; [|done].
    intros [= <- <- <-]. by rewrite andb_true_r.
  - destruct (sre_match prog ma ∅ 0 (c :: s)) as [[n0 m0]|] eqn:E.
    + intros [= <- <- <-]. rewrite andb_true_r. split; [lia | done].
    + destruct (sre_search prog false s) as [[[b1 n1] m1]|] eqn:E1; [|done].
      intros [= <- <- <-]. apply IH in E1 as [H1 H2]. simpl in H2.
      rewrite andb_false_r. simpl. split; [lia | done].
Qed.

Lemma sre_search_bounds (prog : list op) (ma : bool) (s : str)
    (b n : nat) (m : marks) :
  sre_search prog ma s = Some (b, n, m) →
  b + n ≤ length s ∧ (ma = true → 0 < b + n).
Proof.
  intros [Hb [H1 H2]%sre_match_bounds]%sre_search_sound.
  rewrite length_drop in H1. split; [lia|].
  intros ->. destruct b; [|lia]. simpl in H2. specialize (H2 eq_refl). lia.
Qed.

Section Subx.
Variable prog : list op.
Variable tmpl : list titem.

Lemma rounds_next (ma : bool) (s : str) (b n : nat) (m : marks) :
  sre_search prog ma s = Some (b, n, m) →
  rounds (Nat.eqb n 0) (drop (b + n) s) < rounds ma s.
Proof.
  intros [H1 H2]%sre_search_bounds. unfold rounds. rewrite length_drop.
  destruct n as [|n]; simpl; [|lia].
  destruct ma; [specialize (H2 eq_refl)|]; lia.
Qed.

(** With enough fuel the result does not depend on the fuel. *)
Lemma subx_fuel (count f1 f2 done : nat) (ma : bool) (s : str) :
  rounds ma s < f1 → rounds ma s < f2 →
  subx prog tmpl count f1 done ma s = subx prog tmpl count f2 done ma s.
Proof.
  revert f2 done ma s. induction f1 as [|f1 IH]; intros f2 done ma s H1 H2; [lia|].
  destruct f2 as [|f2]; [lia|]. cbn [subx].
  destruct (Nat.eqb count 0 || Nat.ltb done count); [|done].
  destruct (sre_search prog ma s) as [[[b n] m]|] eqn:E; [|done].
  apply rounds_next in E. do 2 f_equal. apply IH; lia.
Qed.

(** Without a bound the number of replacements made is irrelevant. *)
Lemma subx_done (fuel d1 d2 : nat) (ma : bool) (s : str) :
  subx prog tmpl 0 fuel d1 ma s = subx prog tmpl 0 fuel d2 ma s.
Proof.
  revert d1 d2 ma s. induction fuel as [|fuel IH]; intros d1 d2 ma s; [done|].
  cbn [subx Nat.eqb orb].
  destruct (sre_search prog ma s) as [[[b n] m]|]; [|done].
  do 2 f_equal. apply IH.
Qed.

Lemma subx_S (count fuel done : nat) (ma : bool) (s : str) :
  subx prog tmpl count (S fuel) done ma s
  = if Nat.eqb count 0 || Nat.ltb done count then
      match sre_search prog ma s with
      | None => s
      | Some (b, n, m) =>
          take b s ++ expand tmpl m (drop b s)
            ++ subx prog tmpl count fuel (S done) (Nat.eqb n 0)
                 (drop (b + n) s)
      end
    else s.
Proof. done. Qed.

Lemma fuel_S (s : str) : 2 * length s + 2 = S (S (2 * length s)).
Proof. lia. Qed.

Lemma sub_all_none (s : str) :
  sre_search prog false s = None → sub_all prog tmpl s = s.
Proof. intros E. unfold sub_all. by rewrite fuel_S, subx_S, E. Qed.

(** After a non-empty match the text that follows is substituted in the
    same way. *)
Lemma sub_all_some (s : str) (b n : nat) (m : marks) :
  sre_search prog false s = Some (b, n, m) → 0 < n →
  sub_all prog tmpl s
  = take b s ++ expand tmpl m (drop b s) ++ sub_all prog tmpl (drop (b + n) s).
Proof.
  intros E Hn. unfold sub_all at 1. rewrite fuel_S, subx_S, E.
  cbn [Nat.eqb orb]. do 2 f_equal.
  destruct n as [|n]; [lia|]. cbn [Nat.eqb]. unfold sub_all.
  rewrite (subx_done _ 1 0). apply subx_fuel.
  - apply rounds_next in E. unfold rounds in *. simpl in *. lia.
  - unfold rounds. lia.
Qed.

(** With [count=1] the text that follows the first match is kept. *)
Lemma sub_first_some (s : str) (b n : nat) (m : marks) :
  sre_search prog false s = Some (b, n, m) →
  sub_first prog tmpl s
  = take b s ++ expand tmpl m (drop b s) ++ drop (b + n) s.
Proof.
  intros E. unfold sub_first. rewrite fuel_S, subx_S, E.
  cbn [Nat.eqb orb Nat.ltb Nat.leb]. by rewrite subx_S.
Qed.

(** Where no match is empty, [re.sub] without a bound replaces every
    match, and nothing else does. *)
Lemma sub_all_all_replaced (s : str) :
  (∀ s' b n m, sre_search prog false s' = Some (b, n, m) → 0 < n) →
  all_replaced prog tmpl s (sub_all prog tmpl s).
Proof.
  intros Hpos.
  induction s as [s IH] using (induction_ltof1 _ (@length char)).
  unfold ltof in IH.
  destruct (sre_search prog false s) as [[[b n] m]|] eqn:E.
  - rewrite (sub_all_some s b n m E (Hpos _ _ _ _ E)).
    apply (all_replaced_match _ _ s b n m); [done | exact (Hpos _ _ _ _ E) |].
    apply IH. rewrite length_drop.
    pose proof (Hpos _ _ _ _ E). apply sre_search_bounds in E as [? _]. lia.
  - rewrite sub_all_none by done. by apply all_replaced_none.
Qed.

Lemma all_replaced_unique (s out1 out2 : str) :
  all_replaced prog tmpl s out1 → all_replaced prog tmpl s out2 → out1 = out2.
Proof.
  intros H1. revert out2.
  induction H1 as [s E|s b n m out E Hn H1 IH]; intros out2 H2.
  - destruct H2 as [|s b n m out E2]; [done | congruence].
  - destruct H2 as [s E2|s b2 n2 m2 out2 E2 Hn2 H2]; [congruence|].
    rewrite E in E2. injection E2 as <- <- <-. by rewrite (IH out2).
Qed.

(** The substitution brings in no character but those of the template. *)
Lemma forallb_group (f : char → bool) (g : nat) (m : marks) (ms : str) :
  forallb f ms = true → forallb f (group g m ms) = true.
Proof.
  intros H. unfold group.
  destruct (m !! (2 * g - 2)); [|done]. destruct (m !! (2 * g - 1)); [|done].
  by apply forallb_take, forallb_drop.
Qed.

Lemma forallb_expand (f : char → bool) (m : marks) (ms : str) :
  forallb (λ i, match i with T_LITERAL c => f c | T_GROUP _ => true end) tmpl
  = true →
  forallb f ms = true → forallb f (expand tmpl m ms) = true.
Proof.
  intros Ht Hms. unfold expand.
  induction tmpl as [|i items IH]; [done|]. cbn [flat_map forallb] in *.
  apply andb_prop in Ht as [Hi Ht]. rewrite forallb_app, (IH Ht), andb_true_r.
  destruct i as [c|g]; [by cbn; rewrite Hi | by apply forallb_group].
Qed.

Lemma forallb_subx (f : char → bool) (count fuel d : nat) (ma : bool)
    (s : str) :
  forallb (λ i, match i with T_LITERAL c => f c | T_GROUP _ => true end) tmpl
  = true →
  forallb f s = true → forallb f (subx prog tmpl count fuel d ma s) = true.
Proof.
  intros Ht. revert d ma s.
  induction fuel as [|fuel IH]; intros d ma s Hs; [done|]. cbn [subx].
  destruct (Nat.eqb count 0 || Nat.ltb d count); [|done].
  destruct (sre_search prog ma s) as [[[b n] m]|]; [|done].
  rewrite !forallb_app, forallb_take, forallb_expand, IH;
    [done | by apply forallb_drop | done | by apply forallb_drop | done].
Qed.

Lemma forallb_sub_all (f : char → bool) (s : str) :
  forallb (λ i, match i with T_LITERAL c => f c | T_GROUP _ => true end) tmpl
  = true →
  forallb f s = true → forallb f (sub_all prog tmpl s) = true.
Proof. apply forallb_subx. Qed.
End Subx.

(** *** The search is for the leftmost match *)

Lemma sre_search_leftmost (prog : list op) (ma : bool) (s : str)
    (b n : nat) (m : marks) (i : nat) :
  sre_search prog ma s = Some (b, n, m) → i < b →
  sre_match prog (ma && Nat.eqb i 0) ∅ 0 (drop i s) = None.
Proof.
  revert ma b i. induction s as [|c s IH]; intros ma b i; cbn [sre_search].
  - destruct (sre_match prog ma ∅ 0 []) as [[n0 m0]|]; [|done].
    intros [= <- <- <-]. lia.
  - destruct (sre_match prog ma ∅ 0 (c :: s)) as [[n0 m0]|] eqn:E.
    + intros [= <- <- <-]. lia.
    + destruct (sre_search prog false s) as [[[b1 n1] m1]|] eqn:E1; [|done].
      intros [= <- <- <-] Hi. destruct i as [|i].
      * by rewrite andb_true_r.
      * rewrite andb_false_r. apply (IH false b1 i) in E1; [done | lia].
Qed.

Lemma sre_search_first (prog : list op) (s : str) (b n : nat) (m : marks) :
  b ≤ length s →
  (∀ i ma, i < b → sre_match prog ma ∅ 0 (drop i s) = None) →
  (∀ ma, sre_match prog ma ∅ 0 (drop b s) = Some (n, m)) →
  ∀ ma, sre_search prog ma s = Some (b, n, m).
Proof.
  revert s. induction b as [|b IH]; intros s Hb Hnone Hsome ma.
  - pose proof (Hsome ma) as E. rewrite drop_0 in E.
    destruct s; cbn [sre_search]; by rewrite E.
  - destruct s as [|c s]; [simpl in Hb; lia|]. cbn [sre_search].
    pose proof (Hnone 0 ma ltac:(lia)) as E. rewrite drop_0 in E. rewrite E.
    rewrite (IH s); [done | simpl in Hb; lia | |].
    + intros i ma' Hi. apply (Hnone (S i) ma'). lia.
    + intros ma'. apply (Hsome ma').
Qed.

(** Where the matcher succeeds at some position, the search succeeds, at
    that position or before. *)
Lemma sre_search_complete (prog : list op) (s : str) (i : nat) (ma : bool) :
  i ≤ length s →
  (∀ ma', is_Some (sre_match prog ma' ∅ 0 (drop i s))) →
  ∃ b n m, sre_search prog ma s = Some (b, n, m) ∧ b ≤ i.
Proof.
  revert s ma. induction i as [|i IH]; intros s ma Hi Hsome.
  - destruct (Hsome ma) as [[n m] E]. exists 0, n, m.
    rewrite drop_0 in E. destruct s; cbn [sre_search]; by rewrite E.
  - destruct s as [|c s]; [simpl in Hi; lia|]. cbn [sre_search].
    destruct (sre_match prog ma ∅ 0 (c :: s)) as [[n0 m0]|]; [exists 0, n0, m0; split; [done|lia]|].
    destruct (IH s false) as (b & n & m & -> & Hb); [simpl in Hi; lia | done |].
    exists (S b), n, m. split; [done | lia].
Qed.

(** *** Building a successful match, one item at a time *)

Lemma match_lits_intro (l : str) (prog : list op) (ma : bool) (m : marks)
    (n : nat) (t : str) :
  sre_match (lits l ++ prog) ma m n (l ++ t)
  = sre_match prog ma m (n + length l) t.
Proof. by rewrite sre_match_lits, startswith_app, drop_app_length. Qed.

Lemma match_end (ma : bool) (m : marks) (n : nat) (s : str) :
  0 < n → sre_match [] ma m n s = Some (n, m).
Proof.
  intros Hn. cbn [sre_match]. destruct n; [lia|]. by rewrite andb_false_r.
Qed.

(** *** Reading a successful match backwards, one item at a time *)

Lemma match_lits_inv (l : str) (prog : list op) (ma : bool) (m : marks)
    (n : nat) (s : str) (r : nat * marks) :
  sre_match (lits l ++ prog) ma m n s = Some r →
  ∃ t, s = l ++ t ∧ sre_match prog ma m (n + length l) t = Some r.
Proof.
  rewrite sre_match_lits. destruct (startswith l s) eqn:E; [|done].
  apply startswith_iff in E as [t ->]. rewrite drop_app_length. eauto.
Qed.

Lemma match_min_inv (k : cls) (prog : list op) (ma : bool) (m : marks)
    (n : nat) (s : str) (r : nat * marks) :
  sre_match (MIN_REPEAT k :: prog) ma m n s = Some r →
  ∃ w t, s = w ++ t ∧ forallb (in_cls k) w = true
         ∧ sre_match prog ma m (n + length w) t = Some r.
Proof.
  cbn [sre_match]. intros (j & Hj & Hall & H)%min_repeat_sound.
  exists (take j s), (drop j s). rewrite take_drop, length_take, Nat.min_l; done.
Qed.

Lemma match_min_first (k : cls) (prog : list op) (ma : bool) (m : marks)
    (n : nat) (s : str) (r : nat * marks) :
  sre_match (MIN_REPEAT k :: prog) ma m n s = Some r →
  ∃ w t, s = w ++ t ∧ forallb (in_cls k) w = true
         ∧ sre_match prog ma m (n + length w) t = Some r
         ∧ ∀ i, i < length w → sre_match prog ma m (n + i) (drop i s) = None.
Proof. cbn [sre_match]. apply min_repeat_first. Qed.

Lemma match_max_inv (k : cls) (prog : list op) (ma : bool) (m : marks)
    (n : nat) (s : str) (r : nat * marks) :
  sre_match (MAX_REPEAT k :: prog) ma m n s = Some r →
  ∃ w t, s = w ++ t ∧ forallb (in_cls k) w = true
         ∧ sre_match prog ma m (n + length w) t = Some r.
Proof.
  cbn [sre_match]. intros (j & Hj & Hall & H)%max_repeat_sound.
  exists (take j s), (drop j s). rewrite take_drop, length_take, Nat.min_l; done.
Qed.

Lemma match_mark_inv (i : nat) (prog : list op) (ma : bool) (m : marks)
    (n : nat) (s : str) (r : nat * marks) :
  sre_match (MARK i :: prog) ma m n s = Some r →
  sre_match prog ma (<[i:=n]> m) n s = Some r.
Proof. done. Qed.

Lemma match_end_inv (ma : bool) (m : marks) (n : nat) (s : str)
    (n' : nat) (m' : marks) :
  sre_match [] ma m n s = Some (n', m') → n' = n ∧ m' = m.
Proof. cbn [sre_match]. destruct (ma && Nat.eqb n 0); [done|]. by intros [= <- <-]. Qed.

Lemma search_inv (prog : list op) (ma : bool) (s : str) (b n : nat) (m : marks) :
  sre_search prog ma s = Some (b, n, m) →
  ∃ pre ms, s = pre ++ ms ∧ length pre = b
            ∧ sre_match prog (ma && Nat.eqb b 0) ∅ 0 ms = Some (n, m).
Proof.
  intros [Hb H]%sre_search_sound. exists (take b s), (drop b s).
  rewrite take_drop, length_take, Nat.min_l; done.
Qed.

(** *** Expansion of templates *)

Lemma expand_app (t1 t2 : list titem) (m : marks) (ms : str) :
  expand (t1 ++ t2) m ms = expand t1 m ms ++ expand t2 m ms.
Proof. unfold expand. apply flat_map_app. Qed.

Lemma expand_literals (l : str) (m : marks) (ms : str) :
  expand (T_LITERAL <$> l) m ms = l.
Proof. induction l as [|c l IH]; [done|]. cbn. f_equal. apply IH. Qed.

Lemma expand_group (g : nat) (t : list titem) (m : marks) (ms : str) :
  expand (T_GROUP g :: t) m ms = group g m ms ++ expand t m ms.
Proof. done. Qed.

Lemma group_eq (g : nat) (m : marks) (ms : str) (a b : nat) :
  m !! (2 * g - 2) = Some a → m !! (2 * g - 1) = Some b →
  group g m ms = take (b - a) (drop a ms).
Proof. unfold group. by intros -> ->. Qed.

End ReFacts.

(** ** Facts about the script's patterns *)

Module ScriptFacts.
Import Text TextFacts ReplaceFacts Re ReFacts Script.

Lemma compile_11_1 : sre_compile true pattern_11_1 = Some prog_11_1.
Proof. vm_compute. reflexivity. Qed.

Lemma template_11_1 :
  parse_template (String.list_ascii_of_string replacement_11_1) = Some tmpl_11_1.
Proof. vm_compute. reflexivity. Qed.

Lemma compile_11_3 : sre_compile true pattern_11_3 = Some prog_11_3.
Proof. vm_compute. reflexivity. Qed.

Lemma template_11_3 :
  parse_template (String.list_ascii_of_string replacement_11_3) = Some tmpl_11_3.
Proof. vm_compute. reflexivity. Qed.

(** Neither call raises: both patterns and both templates are well formed. *)
Lemma sub_11_1_eq (content : str) :
  sub_11_1 content = Some (sub_all prog_11_1 tmpl_11_1 content).
Proof.
  unfold sub_11_1, re_sub. rewrite compile_11_1, template_11_1.
  assert (template_ok (groups prog_11_1) tmpl_11_1 = true) as -> by (vm_compute; reflexivity).
  reflexivity.
Qed.

Lemma sub_11_3_eq (content : str) :
  sub_11_3 content = Some (sub_all prog_11_3 tmpl_11_3 content).
Proof.
  unfold sub_11_3, re_sub. rewrite compile_11_3, template_11_3.
  assert (template_ok (groups prog_11_3) tmpl_11_3 = true) as -> by (vm_compute; reflexivity).
  reflexivity.
Qed.

(** *** The shape of a match *)

(** A match of the pattern of fix #11.3: the signature, white space (the
    two make up group 1), the headers comment, and some text up to the
    first closing [});]. *)
Lemma match_11_3_inv (ma : bool) (ms : str) (n : nat) (m : marks) :
  sre_match prog_11_3 ma ∅ 0 ms = Some (n, m) →
  ∃ ws body rest,
    ms = signature_11_3 ++ ws ++ headers_anchor ++ body ++ closing_11_3 ++ rest
    ∧ forallb is_space ws = true
    ∧ n = length (signature_11_3 ++ ws ++ headers_anchor ++ body ++ closing_11_3)
    ∧ group 1 m ms = signature_11_3 ++ ws.
Proof.
  unfold prog_11_3. intros H.
  apply match_mark_inv, match_lits_inv in H as (t1 & -> & H).
  apply match_max_inv in H as (ws & t2 & -> & Hws & H).
  apply match_mark_inv, match_lits_inv in H as (t3 & -> & H).
  apply match_min_inv in H as (body & t4 & -> & _ & H).
  rewrite <- (app_nil_r (lits closing_11_3)) in H.
  apply match_lits_inv in H as (rest & -> & H).
  apply match_end_inv in H as [-> ->].
  exists ws, body, rest. split_and!; [done | done | rewrite !length_app; lia |].
  erewrite group_eq;
    [| by rewrite lookup_insert_ne, lookup_insert_eq | by rewrite lookup_insert_eq].
  rewrite Nat.sub_0_r, drop_0, (app_assoc signature_11_3).
  apply take_app_length'. rewrite length_app. lia.
Qed.

Lemma expand_11_3 (m : marks) (ms : str) :
  expand tmpl_11_3 m ms = group 1 m ms ++ block_11_3.
Proof. unfold tmpl_11_3. by rewrite expand_group, expand_literals. Qed.

(** A match of the pattern of fix #11.1: group 1 runs from the
    verification comment over the guard to a [}], white space and a
    second [}]; white space that belongs to no group follows; group 2 is
    the token comment. *)
Lemma match_11_1_inv (ma : bool) (ms : str) (n : nat) (m : marks) :
  sre_match prog_11_1 ma ∅ 0 ms = Some (n, m) →
  ∃ x y w1 w2 rest,
    let g1 := verify_anchor ++ x ++ guard_anchor ++ y ++ brace ++ w1 ++ brace in
    ms = g1 ++ w2 ++ token_anchor ++ rest
    ∧ forallb is_space w1 = true
    ∧ forallb is_space w2 = true
    ∧ n = length (g1 ++ w2 ++ token_anchor)
    ∧ group 1 m ms = g1
    ∧ group 2 m ms = token_anchor.
Proof.
  unfold prog_11_1. intros H.
  apply match_mark_inv, match_lits_inv in H as (t1 & -> & H).
  apply match_min_inv in H as (x & t2 & -> & _ & H).
  apply match_lits_inv in H as (t3 & -> & H).
  apply match_min_inv in H as (y & t4 & -> & _ & H).
  apply match_lits_inv in H as (t5 & -> & H).
  apply match_max_inv in H as (w1 & t6 & -> & Hw1 & H).
  apply match_lits_inv in H as (t7 & -> & H).
  apply match_mark_inv, match_max_inv in H as (w2 & t8 & -> & Hw2 & H).
  apply match_mark_inv, match_lits_inv in H as (rest & -> & H).
  apply match_mark_inv, match_end_inv in H as [-> ->].
  exists x, y, w1, w2, rest. cbn zeta.
  rewrite <- !app_assoc. split_and!; [done | done | done | rewrite !length_app; lia | |].
  - erewrite group_eq;
      [| by rewrite !lookup_insert_ne, lookup_insert_eq by done
       | by rewrite !lookup_insert_ne, lookup_insert_eq by done].
    rewrite Nat.sub_0_r, drop_0.
    rewrite !(app_assoc _ _ (w2 ++ _)). rewrite <- !app_assoc.
    rewrite 6!app_assoc. rewrite take_app_length'; [by rewrite <- !app_assoc|].
    rewrite !length_app. lia.
  - erewrite group_eq;
      [| by rewrite !lookup_insert_ne, lookup_insert_eq by done
       | by rewrite lookup_insert_eq].
    rewrite 7!app_assoc. rewrite drop_app_length'; [|rewrite !length_app; lia].
    apply take_app_length'. lia.
Qed.

Lemma expand_11_1 (m : marks) (ms : str) :
  expand tmpl_11_1 m ms = group 1 m ms ++ inserted_11_1 ++ group 2 m ms.
Proof.
  unfold tmpl_11_1.
  rewrite expand_group, expand_app, expand_literals, expand_group.
  by rewrite app_nil_r.
Qed.

(** *** The token comment and the matches of fix #11.1 *)

Lemma token_anchor_nonempty : token_anchor ≠ [].
Proof. intros H. vm_compute in H. discriminate H. Qed.

(** The leftmost match of the pattern of fix #11.1 in a text. *)
Lemma search_11_1_inv (ma : bool) (s : str) (b n : nat) (m : marks) :
  sre_search prog_11_1 ma s = Some (b, n, m) →
  ∃ pre g0 ws rest,
    s = pre ++ (g0 ++ brace) ++ ws ++ token_anchor ++ rest
    ∧ length pre = b
    ∧ n = length ((g0 ++ brace) ++ ws ++ token_anchor)
    ∧ forallb is_space ws = true
    ∧ startswith verify_anchor g0 = true
    ∧ contains guard_anchor g0 = true
    ∧ group 1 m (drop b s) = g0 ++ brace
    ∧ group 2 m (drop b s) = token_anchor.
Proof.
  intros (pre & ms & -> & Hb & Hm)%search_inv.
  apply match_11_1_inv in Hm
    as (x & y & w1 & w2 & rest & -> & Hw1 & Hw2 & Hn & Hg1 & Hg2).
  exists pre, (verify_anchor ++ x ++ guard_anchor ++ y ++ brace ++ w1), w2, rest.
  subst b. rewrite drop_app_length.
  replace ((verify_anchor ++ x ++ guard_anchor ++ y ++ brace ++ w1) ++ brace)
    with (verify_anchor ++ x ++ guard_anchor ++ y ++ brace ++ w1 ++ brace)
    by (by rewrite <- !app_assoc).
  split_and!; try done; try apply startswith_app.
  apply contains_iff. exists (verify_anchor ++ x), (y ++ brace ++ w1).
  by rewrite <- !app_assoc.
Qed.


(** A match is not empty. *)
Lemma search_11_1_nonempty (s : str) (b n : nat) (m : marks) :
  sre_search prog_11_1 false s = Some (b, n, m) → 0 < n.
Proof.
  intros (pre & g0 & ws & rest & _ & _ & -> & _)%search_11_1_inv.
  rewrite !length_app. unfold token_anchor. simpl. lia.
Qed.




(** *** When the patterns match *)

Lemma forallb_any (w : str) : forallb (in_cls ANY_ALL) w = true.
Proof. by induction w. Qed.

Lemma match_11_1_complete (ma : bool) (x y w1 w2 rest : str) :
  forallb is_space w1 = true → forallb is_space w2 = true →
  is_Some (sre_match prog_11_1 ma ∅ 0
             (verify_anchor ++ x ++ guard_anchor ++ y ++ brace ++ w1
                ++ brace ++ w2 ++ token_anchor ++ rest)).
Proof.
  intros Hw1 Hw2. unfold prog_11_1. cbn [sre_match].
  rewrite match_lits_intro. cbn [sre_match].
  apply min_repeat_complete; [apply forallb_any|].
  rewrite match_lits_intro. cbn [sre_match].
  apply min_repeat_complete; [apply forallb_any|].
  rewrite match_lits_intro. cbn [sre_match].
  apply max_repeat_complete; [done|].
  rewrite match_lits_intro. cbn [sre_match].
  apply max_repeat_complete; [done|]. cbn [sre_match].
  rewrite match_lits_intro. cbn [sre_match].
  assert (0 < length verify_anchor) by (vm_compute; lia).
  rewrite (proj2 (Nat.eqb_neq _ 0)) by lia. by rewrite andb_false_r.
Qed.

Lemma match_11_3_complete (ma : bool) (ws body rest : str) :
  forallb is_space ws = true →
  is_Some (sre_match prog_11_3 ma ∅ 0
             (signature_11_3 ++ ws ++ headers_anchor ++ body
                ++ closing_11_3 ++ rest)).
Proof.
  intros Hws. unfold prog_11_3. cbn [sre_match].
  rewrite match_lits_intro. cbn [sre_match].
  apply max_repeat_complete; [done|]. cbn [sre_match].
  rewrite match_lits_intro. cbn [sre_match].
  apply min_repeat_complete; [apply forallb_any|].
  rewrite <- (app_nil_r (lits closing_11_3)), match_lits_intro.
  rewrite match_end; [done|].
  assert (0 < length signature_11_3) by (vm_compute; lia). lia.
Qed.

(** The search succeeds exactly on the texts of the shape. *)
Lemma search_11_1_shape (content : str) :
  login_shape content ↔ is_Some (sre_search prog_11_1 false content).
Proof.
  split.
  - intros (pre & x & y & w1 & w2 & rest & -> & Hw1 & Hw2).
    destruct (sre_search_complete prog_11_1
                (pre ++ verify_anchor ++ x ++ guard_anchor ++ y ++ brace
                   ++ w1 ++ brace ++ w2 ++ token_anchor ++ rest)
                (length pre) false) as (b & n & m & -> & _); [| |done].
    + rewrite length_app. lia.
    + intros ma. rewrite drop_app_length. by apply match_11_1_complete.
  - intros [[[b n] m] (pre & ms & -> & _ & Hm)%search_inv].
    apply match_11_1_inv in Hm
      as (x & y & w1 & w2 & rest & -> & Hw1 & Hw2 & _).
    exists pre, x, y, w1, w2, rest. by rewrite <- !app_assoc.
Qed.

Lemma search_11_3_shape (content : str) :
  request_shape content ↔ is_Some (sre_search prog_11_3 false content).
Proof.
  split.
  - intros (pre & ws & body & rest & -> & Hws).
    destruct (sre_search_complete prog_11_3
                (pre ++ signature_11_3 ++ ws ++ headers_anchor ++ body
                   ++ closing_11_3 ++ rest)
                (length pre) false) as (b & n & m & -> & _); [| |done].
    + rewrite length_app. lia.
    + intros ma. rewrite drop_app_length. by apply match_11_3_complete.
  - intros [[[b n] m] (pre & ms & -> & _ & Hm)%search_inv].
    apply match_11_3_inv in Hm as (ws & body & rest & -> & Hws & _).
    by exists pre, ws, body, rest.
Qed.

(** *** The fixed block and the pattern of fix #11.3 *)

Lemma block_11_3_eq :
  block_11_3 = headers_anchor ++ block_body_11_3 ++ closing_11_3.
Proof. by vm_compute. Qed.

(** On the signature, white space and the fixed block the pattern
    matches just these: the white space is taken whole, and the first
    [});] after the headers comment is the one that ends the block. *)
Lemma match_11_3_exact (ma : bool) (ws rest : str) :
  forallb is_space ws = true →
  sre_match prog_11_3 ma ∅ 0 (signature_11_3 ++ ws ++ block_11_3 ++ rest)
  = Some (length (signature_11_3 ++ ws ++ block_11_3),
          <[1 := length (signature_11_3 ++ ws)]> (<[0 := 0]> ∅)).
Proof.
  intros Hws. unfold prog_11_3. cbn [sre_match].
  rewrite match_lits_intro. cbn [sre_match].
  apply max_repeat_exact; [done | by intros c t' [= <- _] |].
  replace (0 + length signature_11_3 + length ws)
    with (length (signature_11_3 ++ ws)) by (rewrite length_app; lia).
  cbn [sre_match]. rewrite block_11_3_eq, <- !app_assoc, match_lits_intro.
  cbn [sre_match].
  apply min_repeat_exact; [apply forallb_any | |].
  - intros i Hi. rewrite <- (app_nil_r (lits closing_11_3)), sre_match_lits.
    rewrite (occ_in_zero closing_11_3 block_body_11_3); [done | | done].
    apply no_start_occ_in. by vm_compute.
  - rewrite <- (app_nil_r (lits closing_11_3)), match_lits_intro.
    assert (0 < length signature_11_3) by (vm_compute; lia).
    rewrite match_end by (rewrite length_app; lia).
    do 2 f_equal. rewrite !length_app. lia.
Qed.

(** A match that starts before an occurrence of the signature has its
    own signature, white space and headers comment before it. *)
Lemma match_11_3_before (ma : bool) (p t : str) :
  p ≠ [] →
  is_Some (sre_match prog_11_3 ma ∅ 0 (p ++ signature_11_3 ++ t)) →
  ∃ ws q, p = signature_11_3 ++ ws ++ headers_anchor ++ q
          ∧ forallb is_space ws = true.
Proof.
  intros Hp [[n m] Hm]. apply match_11_3_inv in Hm
    as (ws & body & rest & E & Hws & _).
  assert (mismatch headers_anchor signature_11_3 = true) as Hhs
    by (by vm_compute).
  assert (suffixes_clash (tail signature_11_3) signature_11_3 = true) as Hss
    by (by vm_compute).
  assert (suffixes_clash headers_anchor signature_11_3 = true) as Hhc
    by (by vm_compute).
  assert (∀ c u v, signature_11_3 ++ u = c :: v → is_space c = false) as He.
  { intros c u v [= <- _]. by vm_compute. }
  (* the signature of the match lies in [p] *)
  apply app_eq_app in E as [l [[-> E]|[E1 E2]]]; last first.
  { exfalso. destruct l as [|c l].
    - simpl in E2. destruct ws as [|w ws].
      + exact (mismatch_app_neq _ _ _ _ Hhs E2).
      + cbn [forallb] in Hws. apply andb_prop in Hws as [Hw _].
        by rewrite (He _ _ _ E2) in Hw.
    - apply (mismatch_app_neq (c :: l) signature_11_3 t
               (ws ++ headers_anchor ++ body ++ closing_11_3 ++ rest));
        [|done].
      apply (suffixes_clash_suffix (tail signature_11_3) signature_11_3
               (tail p) (c :: l)); [done | | done].
      destruct p as [|d p]; [done|]. by rewrite E1. }
  (* so does its white space *)
  apply app_eq_app in E as [l2 [[-> E]|[-> E]]].
  { exfalso. destruct l2 as [|c l2].
    - exact (mismatch_app_neq _ _ _ _ Hhs E).
    - rewrite forallb_app in Hws. apply andb_prop in Hws as [_ Hws].
      cbn [forallb] in Hws. apply andb_prop in Hws as [Hc _].
      by rewrite (He _ _ _ E) in Hc. }
  (* and its headers comment *)
  apply app_eq_app in E as [l3 [[E1 E2]|[-> E]]].
  - destruct l3 as [|c l3].
    + rewrite app_nil_r in E1. subst l2. exists ws, []. by rewrite app_nil_r.
    + exfalso.
      apply (mismatch_app_neq (c :: l3) signature_11_3 t
               (body ++ closing_11_3 ++ rest)); [|done].
      by apply (suffixes_clash_suffix headers_anchor signature_11_3 l2 (c :: l3)).
  - by exists ws, l3.
Qed.

(** *** Text-mode reading and writing *)

Lemma no_cr_universal_newlines (raw : str) :
  no_cr (universal_newlines raw) = true.
Proof.
  induction raw as [raw IH] using (induction_ltof1 _ (@length char)).
  unfold ltof in IH. destruct raw as [|c t]; [done|].
  cbn [universal_newlines]. destruct (N.eqb_spec c 13) as [->|Hc].
  - destruct t as [|d t']; [done|]. unfold no_cr. cbn [forallb].
    change (negb (N.eqb 10 13)) with true. cbn [andb].
    destruct (N.eqb d 10); apply IH; simpl; lia.
  - unfold no_cr. cbn [forallb].
    rewrite (proj2 (N.eqb_neq c 13) Hc). cbn [negb andb].
    apply IH. simpl. lia.
Qed.

(** What was written is what is read back, on either platform, when the
    text has no carriage return. *)
Lemma universal_newlines_to_linesep (p : os) (text : str) :
  no_cr text = true → universal_newlines (to_linesep p text) = text.
Proof.
  unfold no_cr, to_linesep. induction text as [|c text IH]; [done|].
  cbn [forallb flat_map]. intros [Hc Ht]%andb_prop. specialize (IH Ht).
  apply negb_true_iff in Hc. destruct (N.eqb_spec c 10) as [->|Hn].
  - destruct p; cbn [linesep app universal_newlines] in *;
      rewrite ?Hc, ?N.eqb_refl; by rewrite IH.
  - cbn [app universal_newlines]. by rewrite Hc, IH.
Qed.

Lemma to_linesep_posix (text : str) : to_linesep Posix text = text.
Proof.
  unfold to_linesep. induction text as [|c text IH]; [done|].
  cbn [flat_map]. rewrite IH.
  by destruct (N.eqb_spec c 10) as [->|].
Qed.

Lemma universal_newlines_no_cr (raw : str) :
  no_cr raw = true → universal_newlines raw = raw.
Proof.
  unfold no_cr. induction raw as [|c raw IH]; [done|].
  cbn [forallb universal_newlines]. intros [Hc Ht]%andb_prop.
  apply negb_true_iff in Hc. by rewrite Hc, IH.
Qed.

(** A text without line ends occurs in what is read where it occurs in
    the file. *)
Lemma startswith_universal_newlines (p raw : str) :
  forallb (λ c, negb (N.eqb c 10) && negb (N.eqb c 13)) p = true →
  startswith p (universal_newlines raw) = startswith p raw.
Proof.
  revert raw. induction p as [|a p IH]; intros raw Hp; [done|].
  cbn [forallb] in Hp. apply andb_prop in Hp as [Ha Hp].
  apply andb_prop in Ha as [Ha10 Ha13]. apply negb_true_iff in Ha10, Ha13.
  destruct raw as [|c t]; [done|]. cbn [universal_newlines].
  destruct (N.eqb_spec c 13) as [->|Hc].
  - cbn [startswith]. by rewrite Ha10, Ha13.
  - cbn [startswith]. by rewrite IH.
Qed.

Lemma occurrences_universal_newlines (p raw : str) :
  p ≠ [] →
  forallb (λ c, negb (N.eqb c 10) && negb (N.eqb c 13)) p = true →
  occurrences p (universal_newlines raw) = occurrences p raw.
Proof.
  intros Hne Hp.
  assert (∀ t, startswith p (10%N :: t) = false) as H10.
  { intros t. destruct p as [|a p]; [done|]. cbn [forallb] in Hp.
    apply andb_prop in Hp as [[Ha _]%andb_prop _]. apply negb_true_iff in Ha.
    cbn [startswith]. by rewrite Ha. }
  assert (∀ t, startswith p (13%N :: t) = false) as H13.
  { intros t. destruct p as [|a p]; [done|]. cbn [forallb] in Hp.
    apply andb_prop in Hp as [[_ Ha]%andb_prop _]. apply negb_true_iff in Ha.
    cbn [startswith]. by rewrite Ha. }
  induction raw as [raw IH] using (induction_ltof1 _ (@length char)).
  unfold ltof in IH. destruct raw as [|c t]; [done|].
  pose proof (startswith_universal_newlines p (c :: t) Hp) as Hs.
  cbn [universal_newlines] in *. destruct (N.eqb_spec c 13) as [->|Hc].
  - destruct t as [|d t'].
    + cbn [occurrences]. by rewrite H10, H13.
    + cbn [occurrences]. rewrite H10, H13.
      destruct (N.eqb_spec d 10) as [->|Hd].
      * rewrite H10, IH by (simpl; lia). done.
      * rewrite (IH (d :: t')) by (simpl; lia). done.
  - cbn [occurrences]. by rewrite Hs, IH by (simpl; lia).
Qed.

(** The texts that the fixes compute from a text without carriage return
    have none. *)
Lemma no_cr_sub_11_1 (content : str) :
  no_cr content = true → no_cr (sub_all prog_11_1 tmpl_11_1 content) = true.
Proof. by apply forallb_sub_all. Qed.

Lemma no_cr_replace_11_2 (content : str) :
  no_cr content = true → no_cr (replace_11_2 content) = true.
Proof.
  apply forallb_str_replace; [|done].
  intros H. vm_compute in H. discriminate H.
Qed.

Lemma no_cr_sub_11_3 (content : str) :
  no_cr content = true → no_cr (sub_all prog_11_3 tmpl_11_3 content) = true.
Proof. by apply forallb_sub_all. Qed.

(** *** Running the script *)

Lemma bind_run {A B} (c : M A) (f : A → M B) (w : world) :
  (c ≫= f) w = match c w with
               | (inr a, w') => f a w'
               | (inl e, w') => (inl e, w')
               end.
Proof. done. Qed.

Lemma read_text (path : string) (w : world) (wr : bool) (raw : str) :
  files w !! path = Some (Regular true wr (Text raw)) →
  read path w = (inr (universal_newlines raw), w).
Proof. unfold read. by intros ->. Qed.

Lemma read_none (path : string) (w : world) :
  files w !! path = None → read path w = (inl (FileNotFoundError path), w).
Proof. unfold read. by intros ->. Qed.

Lemma write_text (path : string) (content : str) (w : world) (r : bool)
    (d : data) :
  files w !! path = Some (Regular r true d) →
  write path content w
  = (inr (),
     World (platform w)
           (<[path := Regular r true (Text (to_linesep (platform w) content))]>
              (files w))
           (console w)).
Proof. unfold write. by intros ->. Qed.

Lemma access_error_none (p : os) (path : string) (n : option node) :
  access_error p path n = None ↔ ∃ raw, n = Some (text_file raw).
Proof.
  split.
  - destruct n as [[|[] [] [raw|]]|]; try done. by exists raw.
  - by intros [raw ->].
Qed.

(** Where the access fails, [read] raises, or [read] returns and every
    [write] raises. *)
Lemma access_error_some (path : string) (w : world) (e : exn) :
  access_error (platform w) path (files w !! path) = Some e →
  read path w = (inl e, w)
  ∨ ∃ raw, read path w = (inr (universal_newlines raw), w)
           ∧ ∀ w', files w' = files w → ∀ content,
               write path content w' = (inl e, w').
Proof.
  unfold read, write.
  destruct (files w !! path) as [[|[] [] [raw|]]|] eqn:E; cbn [access_error];
    intros [= <-]; try (by left).
  right. exists raw. split; [done|]. intros w' -> content. by rewrite E.
Qed.

Lemma paths_differ : routes_ts ≠ api_ts.
Proof. done. Qed.

(** Each fix, on a world that has its file. *)
Lemma fix_11_1_run (w : world) (raw : str) :
  files w !! routes_ts = Some (text_file raw) →
  fix_11_1 w
  = (inr (),
     World (platform w)
           (<[routes_ts := stored (platform w)
                             (sub_all prog_11_1 tmpl_11_1 (universal_newlines raw))]>
              (files w))
           (console w ++ ["Fix #11.1: Adding req.session.userId to login endpoint...";
                          "✓ Fix #11.1 complete"])).
Proof.
  intros H. unfold fix_11_1. rewrite bind_run. cbn [print].
  rewrite bind_run, (read_text _ _ true raw) by done.
  rewrite bind_run, sub_11_1_eq. cbn [checked mret M_ret].
  rewrite bind_run, (write_text _ _ _ true (Text raw)) by done.
  unfold print. cbn [platform files console].
  by rewrite <- app_assoc.
Qed.

Lemma fix_11_2_run (w : world) (raw : str) :
  files w !! routes_ts = Some (text_file raw) →
  fix_11_2 w
  = (inr (),
     World (platform w)
           (<[routes_ts := stored (platform w)
                             (replace_11_2 (universal_newlines raw))]>
              (files w))
           (console w ++ ["Fix #11.2: Simplifying auth checks...";
                          "✓ Fix #11.2 complete"])).
Proof.
  intros H. unfold fix_11_2. rewrite bind_run. cbn [print].
  rewrite bind_run, (read_text _ _ true raw) by done.
  rewrite bind_run, (write_text _ _ _ true (Text raw)) by done.
  unfold print. cbn [platform files console].
  by rewrite <- app_assoc.
Qed.

Lemma fix_11_3_run (w : world) (raw : str) :
  files w !! api_ts = Some (text_file raw) →
  fix_11_3 w
  = (inr (),
     World (platform w)
           (<[api_ts := stored (platform w)
                          (sub_all prog_11_3 tmpl_11_3 (universal_newlines raw))]>
              (files w))
           (console w ++ ["Fix #11.3 & #11.4: Updating apiRequest...";
                          "✓ Fix #11.3 & #11.4 complete"])).
Proof.
  intros H. unfold fix_11_3. rewrite bind_run. cbn [print].
  rewrite bind_run, (read_text _ _ true raw) by done.
  rewrite bind_run, sub_11_3_eq. cbn [checked mret M_ret].
  rewrite bind_run, (write_text _ _ _ true (Text raw)) by done.
  unfold print. cbn [platform files console].
  by rewrite <- app_assoc.
Qed.

(** Each fix, on a world in which the access to its file fails: the
    exception is raised after the announcement and nothing is written. *)
Lemma fix_11_1_fails (w : world) (e : exn) :
  access_error (platform w) routes_ts (files w !! routes_ts) = Some e →
  fix_11_1 w
  = (inl e,
     World (platform w) (files w)
           (console w ++ ["Fix #11.1: Adding req.session.userId to login endpoint..."])).
Proof.
  intros H. unfold fix_11_1. rewrite bind_run. cbn [print]. rewrite bind_run.
  destruct (access_error_some routes_ts
              (World (platform w) (files w)
                 (console w ++ ["Fix #11.1: Adding req.session.userId to login endpoint..."]))
              e H) as [->|(raw & -> & Hw)]; [done|].
  rewrite bind_run, sub_11_1_eq. cbn [checked mret M_ret].
  by rewrite bind_run, Hw.
Qed.

Lemma fix_11_2_fails (w : world) (e : exn) :
  access_error (platform w) routes_ts (files w !! routes_ts) = Some e →
  fix_11_2 w
  = (inl e,
     World (platform w) (files w)
           (console w ++ ["Fix #11.2: Simplifying auth checks..."])).
Proof.
  intros H. unfold fix_11_2. rewrite bind_run. cbn [print]. rewrite bind_run.
  destruct (access_error_some routes_ts
              (World (platform w) (files w)
                 (console w ++ ["Fix #11.2: Simplifying auth checks..."]))
              e H) as [->|(raw & -> & Hw)]; [done|].
  by rewrite bind_run, Hw.
Qed.

Lemma fix_11_3_fails (w : world) (e : exn) :
  access_error (platform w) api_ts (files w !! api_ts) = Some e →
  fix_11_3 w
  = (inl e,
     World (platform w) (files w)
           (console w ++ ["Fix #11.3 & #11.4: Updating apiRequest..."])).
Proof.
  intros H. unfold fix_11_3. rewrite bind_run. cbn [print]. rewrite bind_run.
  destruct (access_error_some api_ts
              (World (platform w) (files w)
                 (console w ++ ["Fix #11.3 & #11.4: Updating apiRequest..."]))
              e H) as [->|(raw & -> & Hw)]; [done|].
  rewrite bind_run, sub_11_3_eq. cbn [checked mret M_ret].
  by rewrite bind_run, Hw.
Qed.

Lemma fix_11_1_crash (w : world) :
  files w !! routes_ts = None →
  fix_11_1 w
  = (inl (FileNotFoundError routes_ts),
     World (platform w) (files w)
           (console w ++ ["Fix #11.1: Adding req.session.userId to login endpoint..."])).
Proof. intros H. apply fix_11_1_fails. by rewrite H. Qed.

Lemma fix_11_3_crash (w : world) :
  files w !! api_ts = None →
  fix_11_3 w
  = (inl (FileNotFoundError api_ts),
     World (platform w) (files w)
           (console w ++ ["Fix #11.3 & #11.4: Updating apiRequest..."])).
Proof. intros H. apply fix_11_3_fails. by rewrite H. Qed.

(** Fix #11.2 reads the text that fix #11.1 has written. *)
Lemma read_back_11_1 (p : os) (raw : str) :
  universal_newlines
    (to_linesep p (sub_all prog_11_1 tmpl_11_1 (universal_newlines raw)))
  = sub_all prog_11_1 tmpl_11_1 (universal_newlines raw).
Proof.
  apply universal_newlines_to_linesep, no_cr_sub_11_1, no_cr_universal_newlines.
Qed.

(** The three ways a run can go. *)
Lemma main_run (w : world) (routes api : str) :
  files w !! routes_ts = Some (text_file routes) →
  files w !! api_ts = Some (text_file api) →
  main w
  = (inr (),
     World (platform w)
           (<[api_ts := stored (platform w)
                          (sub_all prog_11_3 tmpl_11_3 (universal_newlines api))]>
              (<[routes_ts := stored (platform w)
                                (replace_11_2
                                   (sub_all prog_11_1 tmpl_11_1
                                      (universal_newlines routes)))]>
                 (files w)))
           (console w ++ transcript)).
Proof.
  intros Hr Ha. unfold main. rewrite bind_run. cbn [print].
  rewrite bind_run, (fix_11_1_run _ routes) by done.
  rewrite bind_run, (fix_11_2_run _ _) by apply lookup_insert_eq.
  rewrite bind_run, (fix_11_3_run _ api)
    by (cbn [files]; by rewrite !lookup_insert_ne by apply paths_differ).
  rewrite ?bind_run. unfold print. cbn [platform files console].
  rewrite insert_insert_eq, read_back_11_1. by rewrite <- !app_assoc.
Qed.

Lemma main_fails_routes (w : world) (e : exn) :
  access_error (platform w) routes_ts (files w !! routes_ts) = Some e →
  main w
  = (inl e, World (platform w) (files w) (console w ++ take 2 transcript)).
Proof.
  intros Hr. unfold main. rewrite bind_run. cbn [print].
  rewrite bind_run, (fix_11_1_fails _ e) by done. cbn [platform files console].
  by rewrite <- !app_assoc.
Qed.

Lemma main_fails_api (w : world) (routes : str) (e : exn) :
  files w !! routes_ts = Some (text_file routes) →
  access_error (platform w) api_ts (files w !! api_ts) = Some e →
  main w
  = (inl e,
     World (platform w)
           (<[routes_ts := stored (platform w)
                             (replace_11_2
                                (sub_all prog_11_1 tmpl_11_1
                                   (universal_newlines routes)))]>
              (files w))
           (console w ++ take 6 transcript)).
Proof.
  intros Hr Ha. unfold main. rewrite bind_run. cbn [print].
  rewrite bind_run, (fix_11_1_run _ routes) by done.
  rewrite bind_run, (fix_11_2_run _ _) by apply lookup_insert_eq.
  rewrite bind_run, (fix_11_3_fails _ e)
    by (cbn [files]; by rewrite !lookup_insert_ne by apply paths_differ).
  cbn [platform files console].
  rewrite insert_insert_eq, read_back_11_1. by rewrite <- !app_assoc.
Qed.

Lemma main_crash_routes (w : world) :
  files w !! routes_ts = None →
  main w
  = (inl (FileNotFoundError routes_ts),
     World (platform w) (files w) (console w ++ take 2 transcript)).
Proof. intros H. apply main_fails_routes. by rewrite H. Qed.

Lemma main_crash_api (w : world) (routes : str) :
  files w !! routes_ts = Some (text_file routes) →
  files w !! api_ts = None →
  main w
  = (inl (FileNotFoundError api_ts),
     World (platform w)
           (<[routes_ts := stored (platform w)
                             (replace_11_2
                                (sub_all prog_11_1 tmpl_11_1
                                   (universal_newlines routes)))]>
              (files w))
           (console w ++ take 6 transcript)).
Proof. intros Hr Ha. apply main_fails_api; [done|]. by rewrite Ha. Qed.

(** A run either finds both files fit for reading and writing, or the
    access to one of them fails. *)
Lemma access_cases (p : os) (path : string) (n : option node) :
  (∃ raw, n = Some (text_file raw)) ∨ (∃ e, access_error p path n = Some e).
Proof.
  destruct (access_error p path n) as [e|] eqn:E; [right; by exists e|].
  left. by apply (access_error_none p path).
Qed.

End ScriptFacts.

(** ** The properties of the script *)

Import Text TextFacts Re ReFacts ReplaceFacts Script ScriptFacts Examples.

(** *** Fix #11.1 where the pattern does not match *)

(** C5: when the pattern of fix #11.1 matches nowhere in the text read
    from the route file, the fix returns without an exception, the text
    that it writes back is the text that it read, and both progress
    lines, the completion line included, are printed.  The file then
    reads as it did before; it is the file it was when its line ends
    were those that the platform writes. *)
Theorem fix_11_1_silent_noop (w : world) (raw : str) :
  files w !! routes_ts = Some (text_file raw) →
  sre_search prog_11_1 false (universal_newlines raw) = None →
  sub_11_1 (universal_newlines raw) = Some (universal_newlines raw)
  ∧ fix_11_1 w
    = (inr (),
       World (platform w)
             (<[routes_ts := stored (platform w) (universal_newlines raw)]> (files w))
             (console w ++ ["Fix #11.1: Adding req.session.userId to login endpoint...";
                            "✓ Fix #11.1 complete"]))
  ∧ fst (read routes_ts (snd (fix_11_1 w))) = fst (read routes_ts w)
  ∧ (to_linesep (platform w) (universal_newlines raw) = raw →
     <[routes_ts := stored (platform w) (universal_newlines raw)]> (files w)
     = files w).
Proof.
  intros Hfile Hnone.
  assert (sub_all prog_11_1 tmpl_11_1 (universal_newlines raw)
          = universal_newlines raw) as Hsub
    by (by apply sub_all_none).
  split_and!.
  - by rewrite sub_11_1_eq, Hsub.
  - by rewrite (fix_11_1_run w raw), Hsub.
  - rewrite (fix_11_1_run w raw), Hsub by done. cbn [snd].
    rewrite (read_text _ w true raw) by done.
    erewrite read_text by (cbn [files]; apply lookup_insert_eq). cbn [fst].
    by rewrite universal_newlines_to_linesep by apply no_cr_universal_newlines.
  - intros Heq. unfold stored. rewrite Heq. by apply insert_id.
Qed.

Lemma fix_11_1_silent_noop_witness :
  files both_files !! routes_ts = Some (text_file guard_only)
  ∧ sre_search prog_11_1 false guard_only = None
  ∧ sub_11_1 guard_only = Some guard_only
  ∧ fst (fix_11_1 both_files) = inr ()
  ∧ files (snd (fix_11_1 both_files)) = files both_files.
Proof.
  assert (files both_files !! routes_ts = Some (text_file guard_only)) as H1
    by (vm_compute; reflexivity).
  assert (universal_newlines guard_only = guard_only) as Hu
    by (vm_compute; reflexivity).
  assert (sre_search prog_11_1 false (universal_newlines guard_only) = None) as H2
    by (vm_compute; reflexivity).
  destruct (fix_11_1_silent_noop both_files guard_only H1 H2) as (H3 & H4 & _ & H5).
  rewrite Hu in H2, H3. split_and!; [done | done | done | by rewrite H4 |].
  rewrite H4. cbn [snd files]. apply H5. vm_compute. reflexivity.
Defined.

(** *** Fix #11.2 where the expression does not occur *)

(** On a platform that writes a line feed for a line end, a route file
    without the expression whose lines end with a carriage return and a
    line feed is not the same file after fix #11.2: the carriage returns
    are gone. *)
Lemma fix_11_2_rewrites_line_ends :
  files crlf_posix !! routes_ts = Some (text_file crlf_check)
  ∧ occurrences old_11_2 crlf_check = 0
  ∧ fst (fix_11_2 crlf_posix) = inr ()
  ∧ files (snd (fix_11_2 crlf_posix)) !! routes_ts
    = Some (text_file crlf_check_text)
  ∧ crlf_check_text ≠ crlf_check
  ∧ length crlf_check_text + 2 = length crlf_check.
Proof.
  assert (files crlf_posix !! routes_ts = Some (text_file crlf_check)) as H
    by (vm_compute; reflexivity).
  rewrite (fix_11_2_run crlf_posix crlf_check H). cbn [fst snd files].
  rewrite lookup_insert_eq.
  split_and!; [done | by vm_compute | done | by vm_compute | | by vm_compute].
  apply (bool_decide_eq_false_1 _). by vm_compute.
Qed.

(** C6, amended: fix #11.2 on a route file without an occurrence of
    [req.session?.userId || req.user?.id] finishes and writes back the
    text that it has read: the file then reads as it did before.  The
    file is the same file afterwards when its line ends were those that
    the platform writes; on a platform that writes a line feed, when it
    had no carriage return. *)
Theorem fix_11_2_absent (w : world) (raw : str) :
  files w !! routes_ts = Some (text_file raw) →
  occurrences old_11_2 raw = 0 →
  replace_11_2 (universal_newlines raw) = universal_newlines raw
  ∧ fst (fix_11_2 w) = inr ()
  ∧ files (snd (fix_11_2 w))
    = <[routes_ts := stored (platform w) (universal_newlines raw)]> (files w)
  ∧ fst (read routes_ts (snd (fix_11_2 w))) = fst (read routes_ts w)
  ∧ (to_linesep (platform w) (universal_newlines raw) = raw →
     files (snd (fix_11_2 w)) = files w)
  ∧ (platform w = Posix → no_cr raw = true →
     files (snd (fix_11_2 w)) = files w).
Proof.
  intros Hfile Hnone.
  assert (replace_11_2 (universal_newlines raw) = universal_newlines raw) as Heq.
  { apply str_replace_absent.
    rewrite occurrences_universal_newlines; [done | | by vm_compute].
    intros H. vm_compute in H. discriminate H. }
  rewrite (fix_11_2_run w raw), Heq by done. cbn [fst snd files].
  assert (to_linesep (platform w) (universal_newlines raw) = raw →
          <[routes_ts := stored (platform w) (universal_newlines raw)]> (files w)
          = files w) as Hsame.
  { intros Hraw. unfold stored. rewrite Hraw. by apply insert_id. }
  split_and!; [done | done | done | | done |].
  - rewrite (read_text _ w true raw) by done.
    erewrite read_text by (cbn [files]; apply lookup_insert_eq). cbn [fst].
    by rewrite universal_newlines_to_linesep by apply no_cr_universal_newlines.
  - intros Hp Hcr. apply Hsame.
    by rewrite Hp, to_linesep_posix, universal_newlines_no_cr.
Qed.

Lemma fix_11_2_absent_witness :
  (replace_11_2 guard_only = guard_only
   ∧ files (snd (fix_11_2 both_files)) = files both_files)
  ∧ files (snd (fix_11_2 crlf_windows)) = files crlf_windows.
Proof.
  split.
  - assert (files both_files !! routes_ts = Some (text_file guard_only)) as H1
      by (vm_compute; reflexivity).
    assert (occurrences old_11_2 guard_only = 0) as H2
      by (vm_compute; reflexivity).
    destruct (fix_11_2_absent both_files guard_only H1 H2)
      as (H3 & _ & _ & _ & _ & H4).
    split; [exact H3 | by apply H4].
  - assert (files crlf_windows !! routes_ts = Some (text_file crlf_check)) as H1
      by (vm_compute; reflexivity).
    assert (occurrences old_11_2 crlf_check = 0) as H2
      by (vm_compute; reflexivity).
    destruct (fix_11_2_absent crlf_windows crlf_check H1 H2)
      as (_ & _ & _ & _ & H3 & _).
    apply H3. vm_compute. reflexivity.
Defined.

(** *** The two fixes of the route file compose *)



(** *** What is printed *)

(** Two runs in which both files exist can print different lines: where
    the bytes of the route file do not decode, the run ends with
    [UnicodeDecodeError] after the first two lines. *)
Lemma console_depends_on_route_file :
  is_Some (files both_files !! routes_ts)
  ∧ is_Some (files both_files !! api_ts)
  ∧ is_Some (files undecodable_routes !! routes_ts)
  ∧ is_Some (files undecodable_routes !! api_ts)
  ∧ console both_files = console undecodable_routes
  ∧ fst (main both_files) = inr ()
  ∧ console (snd (main both_files)) = transcript
  ∧ fst (main undecodable_routes) = inl UnicodeDecodeError
  ∧ console (snd (main undecodable_routes)) = take 2 transcript
  ∧ console (snd (main both_files)) ≠ console (snd (main undecodable_routes)).
Proof.
  rewrite (main_run both_files guard_only one_request)
    by (vm_compute; reflexivity).
  rewrite (main_fails_routes undecodable_routes UnicodeDecodeError)
    by (vm_compute; reflexivity).
  cbn [fst snd console].
  split_and!; [by vm_compute; eexists.. | done | done | done | done | done | done].
Qed.

(** C8, amended: two runs that both find the two files fit for reading
    and writing (regular files that the user may read and write and
    whose bytes decode) finish and print the same lines, whatever the
    files hold and whatever the platform is: the start line, an
    announcement and a completion line for each of the three fixes, the
    summary (which begins with an empty line) and the reminder. *)
Theorem console_independent_of_files (w1 w2 : world) (r1 a1 r2 a2 : str) :
  files w1 !! routes_ts = Some (text_file r1) →
  files w1 !! api_ts = Some (text_file a1) →
  files w2 !! routes_ts = Some (text_file r2) →
  files w2 !! api_ts = Some (text_file a2) →
  console w1 = console w2 →
  fst (main w1) = inr () ∧ fst (main w2) = inr ()
  ∧ console (snd (main w1)) = console (snd (main w2))
  ∧ console (snd (main w1)) = console w1 ++ transcript.
Proof.
  intros Hr1 Ha1 Hr2 Ha2 Hconsole.
  rewrite (main_run w1 r1 a1), (main_run w2 r2 a2) by done.
  cbn [fst snd console]. by rewrite Hconsole.
Qed.

Lemma console_independent_of_files_witness :
  fst (main both_files) = inr () ∧ fst (main crlf_windows) = inr ()
  ∧ console (snd (main both_files)) = console (snd (main crlf_windows))
  ∧ console (snd (main both_files)) = console both_files ++ transcript.
Proof.
  apply (console_independent_of_files both_files crlf_windows
           guard_only one_request crlf_check one_request);
    vm_compute; reflexivity.
Defined.

(** *** What is written *)

(** C9: a run changes no file but [server/routes.ts] and
    [client/src/lib/api.ts]; this holds also for a run that an exception
    ends. *)
Theorem other_files_unchanged (w : world) (path : string) :
  path ≠ routes_ts → path ≠ api_ts →
  files (snd (main w)) !! path = files w !! path.
Proof.
  intros Hr Ha.
  destruct (access_cases (platform w) routes_ts (files w !! routes_ts))
    as [[routes Hroutes]|[e He]].
  - destruct (access_cases (platform w) api_ts (files w !! api_ts)) as [[api Hapi]|[e He]].
    + rewrite (main_run w routes api) by done. cbn [snd files].
      by rewrite !lookup_insert_ne.
    + rewrite (main_fails_api w routes e) by done. cbn [snd files].
      by rewrite lookup_insert_ne.
  - by rewrite (main_fails_routes w e).
Qed.

Lemma other_files_unchanged_witness :
  files (snd (main other_files)) !! "README.md" = Some (text_file (lit "notes")).
Proof.
  rewrite (other_files_unchanged other_files "README.md"); [| done | done].
  vm_compute. reflexivity.
Defined.

(** *** The end-to-end scenario of fix #11.1 *)

(** On the route file of the scenario the pattern does not match, since
    the file lacks the verification comment that the pattern begins
    with: fix #11.1 leaves the file as it is, and the session line is
    nowhere in it.  The same holds when the line ends of the scenario are
    read as a backslash followed by [n]. *)
Lemma scenario_11_1_unchanged :
  (sub_11_1 guard_only = Some guard_only
   ∧ contains session_line guard_only = false)
  ∧ (sub_11_1 guard_only_raw = Some guard_only_raw
     ∧ contains session_line guard_only_raw = false).
Proof. vm_compute. done. Qed.

(** C2, amended: the content of the scenario is left unchanged by fix
    #11.1; with the line [// Verify password] in front of it, fix #11.1
    puts an empty line, the comment line, the line
    [    req.session.userId = user.id;], an empty line and four blanks
    between the second [}] and [// Generate JWT token]. *)
Theorem scenario_11_1_with_verify_comment :
  sub_11_1 guard_only = Some guard_only
  ∧ sub_11_1 guarded_login = Some guarded_login_fixed
  ∧ ∃ before,
      guarded_login_fixed
      = before ++ session_line ++ lit (nl +:+ nl +:+ "    ") ++ token_anchor.
Proof.
  split_and!; [by vm_compute | by vm_compute |].
  exists (take (length guarded_login_fixed
                - length (session_line ++ lit (nl +:+ nl +:+ "    ") ++ token_anchor))
               guarded_login_fixed).
  by vm_compute.
Qed.

(** *** Fix #11.3 replaces every match *)

Lemma sub_11_3_first_eq (content : str) :
  re_sub pattern_11_3 replacement_11_3 content 1 true
  = Some (sub_first prog_11_3 tmpl_11_3 content).
Proof.
  unfold re_sub. rewrite compile_11_3, template_11_3.
  assert (template_ok (groups prog_11_3) tmpl_11_3 = true) as -> by (vm_compute; reflexivity).
  reflexivity.
Qed.

(** A match of the pattern of fix #11.3 is not empty. *)
Lemma search_11_3_nonempty (content : str) (b n : nat) (m : marks) :
  sre_search prog_11_3 false content = Some (b, n, m) → 0 < n.
Proof.
  intros (pre & ms & -> & Hb & (ws & body & rest & _ & _ & -> & _)%match_11_3_inv)%search_inv.
  rewrite length_app. unfold signature_11_3. simpl. lia.
Qed.

(** The leftmost match of fix #11.3, as the search takes it. *)
Lemma request_at_complete (ma : bool) (t : str) :
  request_at t → is_Some (sre_match prog_11_3 ma ∅ 0 t).
Proof.
  intros (ws & body & rest & -> & Hws). by apply match_11_3_complete.
Qed.

Lemma request_at_shape (c pre t : str) :
  c = pre ++ t → request_at t → request_shape c.
Proof.
  intros -> (ws & body & rest & -> & Hws). by exists pre, ws, body, rest.
Qed.

Lemma match_11_3_inv_first (ma : bool) (ms : str) (n : nat) (m : marks) :
  sre_match prog_11_3 ma ∅ 0 ms = Some (n, m) →
  ∃ ws body rest,
    ms = signature_11_3 ++ ws ++ headers_anchor ++ body ++ closing_11_3 ++ rest
    ∧ forallb is_space ws = true
    ∧ n = length (signature_11_3 ++ ws ++ headers_anchor ++ body ++ closing_11_3)
    ∧ group 1 m ms = signature_11_3 ++ ws
    ∧ (∀ p t, body ++ closing_11_3 ++ rest = p ++ closing_11_3 ++ t →
              length body ≤ length p).
Proof.
  unfold prog_11_3. intros H.
  apply match_mark_inv, match_lits_inv in H as (t1 & -> & H).
  apply match_max_inv in H as (ws & t2 & -> & Hws & H).
  apply match_mark_inv, match_lits_inv in H as (t3 & -> & H).
  apply match_min_first in H as (body & t4 & -> & _ & H & Hbody).
  assert (∀ p t, body ++ t4 = p ++ closing_11_3 ++ t → length body ≤ length p)
    as Hfirst.
  { intros p t E. destruct (decide (length body ≤ length p)) as [|Hlt]; [done|].
    exfalso. specialize (Hbody (length p) ltac:(lia)).
    rewrite E, drop_app_length in Hbody.
    rewrite <- (app_nil_r (lits closing_11_3)), match_lits_intro in Hbody.
    rewrite match_end in Hbody; [done|].
    assert (0 < length signature_11_3) by (vm_compute; lia). lia. }
  clear Hbody. rewrite <- (app_nil_r (lits closing_11_3)) in H.
  apply match_lits_inv in H as (rest & -> & H).
  apply match_end_inv in H as [-> ->].
  exists ws, body, rest.
  split_and!; [done | done | rewrite !length_app; lia | | exact Hfirst].
  erewrite group_eq;
    [| by rewrite lookup_insert_ne, lookup_insert_eq | by rewrite lookup_insert_eq].
  rewrite Nat.sub_0_r, drop_0, (app_assoc signature_11_3).
  apply take_app_length'. rewrite length_app. lia.
Qed.

Lemma search_11_3_first (c : str) (b n : nat) (m : marks) :
  sre_search prog_11_3 false c = Some (b, n, m) →
  ∃ pre ws body rest,
    first_request c pre ws body rest
    ∧ sub_all prog_11_3 tmpl_11_3 c
      = pre ++ signature_11_3 ++ ws ++ block_11_3
          ++ sub_all prog_11_3 tmpl_11_3 rest.
Proof.
  intros E. pose proof (search_11_3_nonempty _ _ _ _ E) as Hn.
  pose proof (sub_all_some prog_11_3 tmpl_11_3 c b n m E Hn) as Hsub.
  pose proof (λ i, sre_search_leftmost _ _ _ _ _ _ i E) as Hleft.
  destruct (search_inv _ _ _ _ _ _ E) as (pre & ms & -> & Hb & Hm).
  apply match_11_3_inv_first in Hm
    as (ws & body & rest & Hms & Hws & Hlen & Hg & Hbody).
  exists pre, ws, body, rest. split.
  - split_and!; [by rewrite Hms | done | | done].
    intros p t Ec Ht.
    destruct (decide (length pre ≤ length p)) as [|Hlt]; [done|].
    exfalso. specialize (Hleft (length p) ltac:(lia)).
    rewrite Ec, drop_app_length in Hleft. cbn [andb] in Hleft.
    destruct (request_at_complete false t Ht) as [r Hr]. congruence.
  - subst b. rewrite Hsub, take_app_length, drop_app_length, drop_app_add.
    rewrite expand_11_3, Hg, Hlen. rewrite Hms.
    replace (signature_11_3 ++ ws ++ headers_anchor ++ body ++ closing_11_3 ++ rest)
      with ((signature_11_3 ++ ws ++ headers_anchor ++ body ++ closing_11_3) ++ rest)
      by (by rewrite <- !app_assoc).
    by rewrite drop_app_length, <- !app_assoc.
Qed.

Lemma first_request_unique (c pre ws body rest pre' ws' body' rest' : str) :
  first_request c pre ws body rest →
  first_request c pre' ws' body' rest' →
  pre' = pre ∧ ws' = ws ∧ body' = body ∧ rest' = rest.
Proof.
  intros (Hc & Hws & Hp & Hb) (Hc' & Hws' & Hp' & Hb').
  assert (length pre' = length pre) as Hlp.
  { apply Nat.le_antisymm.
    - apply (Hp' pre _ Hc). by exists ws, body, rest.
    - apply (Hp pre' _ Hc'). by exists ws', body', rest'. }
  rewrite Hc in Hc'. apply app_inj_1 in Hc' as [<- Hc']; [|done].
  apply app_inv_head in Hc'.
  apply (span_unique is_space) in Hc' as [<- Hc']; [|done|done| |];
    [| intros c0 r Heq;
       change headers_anchor with (47%N :: tail headers_anchor) in Heq;
       injection Heq as <- _; by vm_compute..].
  apply app_inv_head in Hc'.
  assert (length body' = length body) as Hlb.
  { apply Nat.le_antisymm.
    - apply (Hb' body rest (eq_sym Hc')).
    - apply (Hb body' rest' Hc'). }
  apply app_inj_1 in Hc' as [<- Hc']; [|done].
  by apply app_inv_head in Hc' as <-.
Qed.

Lemma every_request_replaced_unique (c out1 out2 : str) :
  every_request_replaced c out1 → every_request_replaced c out2 → out1 = out2.
Proof.
  intros H1. revert out2.
  induction H1 as [c Hno|c pre ws body rest out Hf H1 IH]; intros out2 H2.
  - destruct H2 as [|c pre ws body rest out (-> & Hws & _)]; [done|].
    destruct Hno. by exists pre, ws, body, rest.
  - destruct H2 as [c Hno|c pre2 ws2 body2 rest2 out2 Hf2 H2].
    + destruct Hf as (-> & Hws & _). destruct Hno. by exists pre, ws, body, rest.
    + destruct (first_request_unique _ _ _ _ _ _ _ _ _ Hf Hf2)
        as (-> & -> & -> & ->).
      by rewrite (IH out2).
Qed.

Lemma sub_all_11_3_every_request (c : str) :
  every_request_replaced c (sub_all prog_11_3 tmpl_11_3 c).
Proof.
  induction c as [c IH] using (induction_ltof1 _ (@length char)).
  unfold ltof in IH.
  destruct (sre_search prog_11_3 false c) as [[[b n] m]|] eqn:E.
  - destruct (search_11_3_first c b n m E) as (pre & ws & body & rest & Hf & ->).
    apply (next_request c pre ws body rest); [done|]. apply IH.
    destruct Hf as (-> & _). rewrite !length_app.
    assert (0 < length signature_11_3) by (vm_compute; lia). lia.
  - rewrite sub_all_none by done. apply no_request.
    intros Hs%search_11_3_shape. rewrite E in Hs. by destruct Hs.
Qed.

(** C4: the substitution of fix #11.3 has no bound on the number of
    replacements: for every content its result is the content with
    every match of the pattern replaced, and no other text is.  The
    matches are described on the text, without the matcher: the leftmost
    place at which the signature, white space and the headers comment
    are followed, somewhere, by [});], up to the first such [});]; and
    then the matches in the text behind it, in the same way. *)
Theorem sub_11_3_replaces_every_match (content : str) :
  ∃ out,
    sub_11_3 content = Some out
    ∧ every_request_replaced content out
    ∧ ∀ out', every_request_replaced content out' → out' = out.
Proof.
  exists (sub_all prog_11_3 tmpl_11_3 content).
  split; [apply sub_11_3_eq|].
  split; [apply sub_all_11_3_every_request|].
  intros out' H.
  apply (every_request_replaced_unique content); [done|].
  apply sub_all_11_3_every_request.
Qed.

(** In a client file with two [apiRequest] functions, which has the
    fixed block nowhere, the result has it twice; with [count=1] it
    would have it once. *)
Lemma sub_11_3_replaces_every_match_witness :
  ∃ out out1,
    sub_11_3 two_requests = Some out
    ∧ every_request_replaced two_requests out
    ∧ occurrences block_11_3 two_requests = 0
    ∧ occurrences block_11_3 out = 2
    ∧ re_sub pattern_11_3 replacement_11_3 two_requests 1 true = Some out1
    ∧ occurrences block_11_3 out1 = 1.
Proof.
  destruct (sub_11_3_replaces_every_match two_requests) as (out & H1 & H2 & _).
  exists out. eexists. split; [exact H1|]. split; [exact H2|].
  assert (sub_11_3 two_requests
          = Some (sub_all prog_11_3 tmpl_11_3 two_requests)) as H3
    by apply sub_11_3_eq.
  rewrite H1 in H3. injection H3 as ->.
  split_and!; by vm_compute.
Defined.

(** In a client file with two [apiRequest] functions both are rewritten,
    whereas [count=1] would rewrite the first only. *)
Example two_requests_both_replaced :
  ∃ out,
    sub_11_3 one_request = Some out
    ∧ sub_11_3 two_requests = Some (out ++ lit nl ++ out)
    ∧ re_sub pattern_11_3 replacement_11_3 two_requests 1 true
      = Some (out ++ lit nl ++ one_request)
    ∧ out ≠ one_request.
Proof.
  eexists. split_and!; [by vm_compute | by vm_compute | by vm_compute |].
  apply (bool_decide_eq_false_1 _). by vm_compute.
Qed.

(** *** Fix #11.3 keeps the signature *)

(** C10: where the pattern of fix #11.3 matches, the match consists of
    the signature of [apiRequest], white space, the headers comment and
    the text up to the next [});]; in the result the text before the
    match, the signature and the white space are as they were, the fixed
    block replaces the rest of the match, and the text after the match
    is treated in the same way. *)
Theorem sub_11_3_keeps_signature (content : str) (b n : nat) (m : marks) :
  sre_search prog_11_3 false content = Some (b, n, m) →
  ∃ ws body rest after,
    content = take b content ++ signature_11_3 ++ ws ++ headers_anchor
                ++ body ++ closing_11_3 ++ rest
    ∧ forallb is_space ws = true
    ∧ group 1 m (drop b content) = signature_11_3 ++ ws
    ∧ sub_11_3 rest = Some after
    ∧ sub_11_3 content
      = Some (take b content ++ signature_11_3 ++ ws ++ block_11_3 ++ after).
Proof.
  intros E. pose proof (search_11_3_nonempty _ _ _ _ E) as Hn.
  pose proof E as (pre & ms & -> & Hb & Hm)%search_inv.
  pose proof Hm as (ws & body & rest & -> & Hws & Hlen & Hg)%match_11_3_inv.
  exists ws, body, rest, (sub_all prog_11_3 tmpl_11_3 rest).
  rewrite !sub_11_3_eq, (sub_all_some _ _ _ b n m E Hn), expand_11_3.
  subst b. rewrite take_app_length, drop_app_length, Hg.
  split_and!; [done | done | done | done |].
  rewrite drop_app_add.
  replace (signature_11_3 ++ ws ++ headers_anchor ++ body ++ closing_11_3 ++ rest)
    with ((signature_11_3 ++ ws ++ headers_anchor ++ body ++ closing_11_3) ++ rest)
    by (by rewrite <- !app_assoc).
  by rewrite Hlen, drop_app_length, <- !app_assoc.
Qed.

Lemma sub_11_3_keeps_signature_witness :
  ∃ ws body rest after,
    one_request = take 0 one_request ++ signature_11_3 ++ ws ++ headers_anchor
                    ++ body ++ closing_11_3 ++ rest
    ∧ forallb is_space ws = true
    ∧ group 1 {[ 0 := 0; 1 := 80 ]} (drop 0 one_request) = signature_11_3 ++ ws
    ∧ sub_11_3 rest = Some after
    ∧ sub_11_3 one_request
      = Some (take 0 one_request ++ signature_11_3 ++ ws ++ block_11_3 ++ after).
Proof.
  apply (sub_11_3_keeps_signature one_request 0 202 {[ 0 := 0; 1 := 80 ]}).
  vm_compute. reflexivity.
Defined.

(** *** Fix #11.2 and the occurrences of the two expressions *)

Lemma old_11_2_eq : old_11_2 = new_11_2 ++ dropped_11_2.
Proof. reflexivity. Qed.

Lemma new_11_2_nonempty : new_11_2 ≠ [].
Proof. intros H. vm_compute in H. discriminate H. Qed.

Lemma old_11_2_nonempty : old_11_2 ≠ [].
Proof. intros H. vm_compute in H. discriminate H. Qed.

(** After fix #11.2 the longer expression can still occur, where an
    occurrence was followed by [ || req.user?.id]; and the shorter
    expression occurs wherever it occurred before, also where it was not
    the beginning of the longer one. *)
Lemma replace_11_2_leaves_occurrences :
  (occurrences old_11_2 chained_check = 1
   ∧ occurrences old_11_2 (replace_11_2 chained_check) = 1)
  ∧ (occurrences old_11_2 session_check = 0
     ∧ occurrences new_11_2 (replace_11_2 session_check) = 1).
Proof. vm_compute. done. Qed.

(** C1, amended: on a route file with [N] occurrences of
    [req.session?.userId || req.user?.id] (as many as [count] finds),
    fix #11.2 replaces each of them, so that the result is shorter by [N] times the 16 characters of
    [ || req.user?.id]; [req.session?.userId] has as many occurrences in
    the result as in the file, which are at least [N]; and the longer
    expression has as many occurrences in the result as the file has
    occurrences of it that [ || req.user?.id] follows. *)
Theorem replace_11_2_occurrences (content : str) (N : nat) :
  occurrences old_11_2 content = N →
  str_count old_11_2 content = N
  ∧ length content = length (replace_11_2 content) + 16 * N
  ∧ occurrences new_11_2 (replace_11_2 content) = occurrences new_11_2 content
  ∧ N ≤ occurrences new_11_2 content
  ∧ occurrences old_11_2 (replace_11_2 content)
    = occurrences (old_11_2 ++ dropped_11_2) content.
Proof.
  intros <-. unfold replace_11_2. split_and!.
  - apply str_count_occurrences; [apply old_11_2_nonempty | by vm_compute].
  - pose proof (str_replace_length old_11_2 new_11_2 content) as H.
    change (length old_11_2) with 35 in H. change (length new_11_2) with 19 in H.
    assert (no_start old_11_2 (tail old_11_2) = true) as Hn by (by vm_compute).
    specialize (H old_11_2_nonempty Hn). lia.
  - rewrite old_11_2_eq.
    apply occurrences_new_replace; [apply new_11_2_nonempty | by vm_compute..].
  - apply occurrences_prefix. by vm_compute.
  - rewrite old_11_2_eq.
    apply occurrences_old_replace;
      [apply new_11_2_nonempty | vm_compute; lia | by vm_compute..].
Qed.

Lemma replace_11_2_occurrences_witness :
  occurrences old_11_2 three_checks = 3
  ∧ length three_checks = length (replace_11_2 three_checks) + 16 * 3
  ∧ occurrences new_11_2 (replace_11_2 three_checks) = 3
  ∧ occurrences old_11_2 (replace_11_2 three_checks) = 0.
Proof.
  assert (occurrences old_11_2 three_checks = 3) as H by (vm_compute; reflexivity).
  destruct (replace_11_2_occurrences three_checks 3 H) as (_ & H1 & H2 & H3 & H4).
  split_and!; [done | done | |].
  - rewrite H2. vm_compute. reflexivity.
  - rewrite H4. vm_compute. reflexivity.
Defined.

(** *** Fix #11.1 applied twice *)





(** ** Further properties of the script *)

(** *** Fix #11.3 applied twice *)

(** Where the first match is replaced, the result has its first match at
    the same place: the signature, the white space and the fixed block. *)
Lemma search_11_3_after_replacement (content : str) (b n : nat) (m : marks)
    (pre ws body rest after : str) :
  sre_search prog_11_3 false content = Some (b, n, m) →
  content = pre ++ signature_11_3 ++ ws ++ headers_anchor ++ body
              ++ closing_11_3 ++ rest →
  length pre = b → forallb is_space ws = true →
  sre_search prog_11_3 false
    (pre ++ signature_11_3 ++ ws ++ block_11_3 ++ after)
  = Some (b, length (signature_11_3 ++ ws ++ block_11_3),
          <[1 := length (signature_11_3 ++ ws)]> (<[0 := 0]> ∅)).
Proof.
  intros E Hc Hb Hws. apply sre_search_first.
  - rewrite length_app. lia.
  - intros i ma Hi.
    destruct (sre_match prog_11_3 ma ∅ 0 (drop i _)) as [r|] eqn:Hm; [|done].
    exfalso.
    rewrite drop_app_le in Hm by lia.
    destruct (match_11_3_before ma (drop i pre)
                (ws ++ block_11_3 ++ after)) as (ws2 & q & Hp & Hws2).
    { intros Hnil. apply (f_equal length) in Hnil.
      rewrite length_drop in Hnil. simpl in Hnil. lia. }
    { by rewrite Hm. }
    pose proof (sre_search_leftmost _ _ _ _ _ _ i E Hi) as Hnone.
    cbn [andb] in Hnone.
    rewrite Hc, drop_app_le, Hp in Hnone by lia.
    rewrite <- !app_assoc in Hnone.
    destruct (match_11_3_complete false ws2
                (q ++ signature_11_3 ++ ws ++ headers_anchor ++ body) rest Hws2)
      as [r' Hr'].
    rewrite <- !app_assoc in Hr'. by rewrite Hr' in Hnone.
  - intros ma. rewrite <- Hb, drop_app_length. by apply match_11_3_exact.
Qed.

Lemma sub_all_11_3_twice (content : str) :
  sub_all prog_11_3 tmpl_11_3 (sub_all prog_11_3 tmpl_11_3 content)
  = sub_all prog_11_3 tmpl_11_3 content.
Proof.
  induction content as [content IH] using (induction_ltof1 _ (@length char)).
  unfold ltof in IH.
  destruct (sre_search prog_11_3 false content) as [[[b n] m]|] eqn:E;
    [|by rewrite !(sub_all_none _ _ _ E)].
  pose proof (search_11_3_nonempty _ _ _ _ E) as Hn.
  pose proof E as (pre & ms & Hc & Hb & Hm)%search_inv.
  pose proof Hm as (ws & body & rest & -> & Hws & Hlen & Hg)%match_11_3_inv.
  (* the first application *)
  assert (sub_all prog_11_3 tmpl_11_3 content
          = pre ++ signature_11_3 ++ ws ++ block_11_3
              ++ sub_all prog_11_3 tmpl_11_3 rest) as Hfix.
  { rewrite (sub_all_some _ _ _ b n m E Hn), expand_11_3.
    rewrite Hc, <- Hb, take_app_length, drop_app_length, Hg, drop_app_add.
    replace (signature_11_3 ++ ws ++ headers_anchor ++ body ++ closing_11_3 ++ rest)
      with ((signature_11_3 ++ ws ++ headers_anchor ++ body ++ closing_11_3) ++ rest)
      by (by rewrite <- !app_assoc).
    by rewrite Hlen, drop_app_length, <- !app_assoc. }
  (* the second application *)
  pose proof (search_11_3_after_replacement content b n m pre ws body rest
                (sub_all prog_11_3 tmpl_11_3 rest) E Hc Hb Hws) as E2.
  rewrite Hfix.
  rewrite (sub_all_some _ _ _ _ _ _ E2)
    by (rewrite !length_app; assert (0 < length signature_11_3) by (vm_compute; lia); lia).
  rewrite expand_11_3, <- Hb, take_app_length, drop_app_length, drop_app_add.
  erewrite group_eq;
    [| by rewrite lookup_insert_ne, lookup_insert_eq | by rewrite lookup_insert_eq].
  rewrite Nat.sub_0_r, drop_0.
  replace (signature_11_3 ++ ws ++ block_11_3 ++ sub_all prog_11_3 tmpl_11_3 rest)
    with ((signature_11_3 ++ ws) ++ block_11_3 ++ sub_all prog_11_3 tmpl_11_3 rest)
    by (by rewrite <- !app_assoc).
  rewrite take_app_length.
  replace ((signature_11_3 ++ ws) ++ block_11_3 ++ sub_all prog_11_3 tmpl_11_3 rest)
    with ((signature_11_3 ++ ws ++ block_11_3) ++ sub_all prog_11_3 tmpl_11_3 rest)
    by (by rewrite <- !app_assoc).
  rewrite drop_app_length, IH; [by rewrite <- !app_assoc|].
  rewrite Hc, !length_app.
  assert (0 < length signature_11_3) by (vm_compute; lia). lia.
Qed.

(** X1: fix #11.3 is idempotent: on every client file, applying the
    substitution to its own result returns that result. *)
Theorem sub_11_3_idempotent (content : str) :
  ∃ out, sub_11_3 content = Some out ∧ sub_11_3 out = Some out.
Proof.
  exists (sub_all prog_11_3 tmpl_11_3 content).
  by rewrite !sub_11_3_eq, sub_all_11_3_twice.
Qed.

(** X2: a second run of the script, after one that found both files fit
    for reading and writing, finishes as well and leaves the client file
    as the first run left it. *)
Theorem client_file_after_second_run (w : world) (routes api : str) :
  files w !! routes_ts = Some (text_file routes) →
  files w !! api_ts = Some (text_file api) →
  fst (main (snd (main w))) = inr ()
  ∧ files (snd (main (snd (main w)))) !! api_ts
    = files (snd (main w)) !! api_ts.
Proof.
  intros Hr Ha.
  rewrite (main_run w routes api) by done. cbn [snd].
  rewrite (main_run _
             (to_linesep (platform w)
                (replace_11_2
                   (sub_all prog_11_1 tmpl_11_1 (universal_newlines routes))))
             (to_linesep (platform w)
                (sub_all prog_11_3 tmpl_11_3 (universal_newlines api)))).
  - cbn [fst snd files platform]. split; [done|].
    rewrite !lookup_insert_eq.
    rewrite (universal_newlines_to_linesep _ (sub_all prog_11_3 _ _))
      by apply no_cr_sub_11_3, no_cr_universal_newlines.
    by rewrite sub_all_11_3_twice.
  - cbn [files]. rewrite lookup_insert_ne by (by apply not_eq_sym, paths_differ).
    apply lookup_insert_eq.
  - cbn [files]. apply lookup_insert_eq.
Qed.

Lemma client_file_after_second_run_witness :
  fst (main (snd (main other_files))) = inr ()
  ∧ files (snd (main (snd (main other_files)))) !! api_ts
    = files (snd (main other_files)) !! api_ts.
Proof.
  apply (client_file_after_second_run other_files two_endpoints two_requests);
    vm_compute; reflexivity.
Defined.

(** *** Runs that an exception ends *)

(** X3: the run finishes without an exception exactly when both files
    are regular files that the user may read and write and whose bytes
    decode.  (A file that is missing, a directory, not readable, not
    decodable or not writable ends the run with the exception of [open]
    or [read].) *)
Theorem main_finishes_iff (w : world) :
  fst (main w) = inr ()
  ↔ (∃ routes, files w !! routes_ts = Some (text_file routes))
    ∧ (∃ api, files w !! api_ts = Some (text_file api)).
Proof.
  destruct (access_cases (platform w) routes_ts (files w !! routes_ts))
    as [[routes Hr]|[e He]].
  - destruct (access_cases (platform w) api_ts (files w !! api_ts)) as [[api Ha]|[e He]].
    + rewrite (main_run w routes api) by done. split; [by eauto | done].
    + rewrite (main_fails_api w routes e) by done. cbn [fst].
      split; [done|]. intros [_ Hex].
      apply (access_error_none (platform w) api_ts) in Hex. congruence.
  - rewrite (main_fails_routes w e) by done. cbn [fst].
    split; [done|]. intros [Hex _].
    apply (access_error_none (platform w) routes_ts) in Hex. congruence.
Qed.

Lemma main_finishes_iff_witness :
  fst (main both_files) = inr ()
  ∧ fst (main routes_only) ≠ inr ()
  ∧ fst (main undecodable_routes) ≠ inr ()
  ∧ fst (main read_only_routes) ≠ inr ().
Proof.
  split_and!.
  - apply (main_finishes_iff both_files).
    split; eexists; vm_compute; reflexivity.
  - intros H. apply (main_finishes_iff routes_only) in H as [_ [x Hx]].
    vm_compute in Hx. discriminate Hx.
  - intros H. apply (main_finishes_iff undecodable_routes) in H as [[x Hx] _].
    vm_compute in Hx. discriminate Hx.
  - intros H. apply (main_finishes_iff read_only_routes) in H as [[x Hx] _].
    vm_compute in Hx. discriminate Hx.
Defined.

(** X4: without the route file the run ends with [FileNotFoundError] for
    it right after the first announcement: only the start line and that
    announcement are printed, and no file is written, the client file
    included. *)
Theorem main_without_routes (w : world) :
  files w !! routes_ts = None →
  fst (main w) = inl (FileNotFoundError routes_ts)
  ∧ files (snd (main w)) = files w
  ∧ console (snd (main w))
    = console w ++ ["Applying Bug #11 fixes...";
                    "Fix #11.1: Adding req.session.userId to login endpoint..."].
Proof. intros H. by rewrite main_crash_routes. Qed.

Lemma main_without_routes_witness :
  fst (main no_files) = inl (FileNotFoundError routes_ts)
  ∧ files (snd (main no_files)) = files no_files
  ∧ console (snd (main no_files))
    = console no_files ++ ["Applying Bug #11 fixes...";
                           "Fix #11.1: Adding req.session.userId to login endpoint..."].
Proof. apply (main_without_routes no_files). vm_compute. reflexivity. Defined.

(** X5: without the client file the run ends with [FileNotFoundError]
    for it, after both fixes of the route file have been written and
    reported: the route file holds the result of fixes #11.1 and #11.2,
    nothing else is written, and neither a completion line for fix #11.3
    nor the summary is printed. *)
Theorem main_without_client (w : world) (routes fixed : str) :
  files w !! routes_ts = Some (text_file routes) →
  files w !! api_ts = None →
  sub_11_1 (universal_newlines routes) = Some fixed →
  fst (main w) = inl (FileNotFoundError api_ts)
  ∧ files (snd (main w))
    = <[routes_ts := stored (platform w) (replace_11_2 fixed)]> (files w)
  ∧ console (snd (main w)) = console w ++ take 6 transcript
  ∧ files (snd (main w)) !! api_ts = None.
Proof.
  intros Hr Ha Hs. rewrite sub_11_1_eq in Hs. injection Hs as <-.
  rewrite (main_crash_api w routes) by done. cbn [fst snd files console].
  split_and!; try done.
  by rewrite lookup_insert_ne by apply paths_differ.
Qed.

Lemma main_without_client_witness :
  fst (main routes_only) = inl (FileNotFoundError api_ts)
  ∧ files (snd (main routes_only))
    = <[routes_ts := text_file (replace_11_2 two_endpoints_once)]>
        (files routes_only)
  ∧ console (snd (main routes_only)) = console routes_only ++ take 6 transcript
  ∧ files (snd (main routes_only)) !! api_ts = None.
Proof.
  destruct (main_without_client routes_only two_endpoints two_endpoints_once)
    as (H1 & H2 & H3 & H4); [vm_compute; reflexivity.. |].
  split_and!; [done | | done | done].
  rewrite H2. unfold stored. by rewrite to_linesep_posix.
Defined.

(** *** When fix #11.1 changes the route file *)

(** The first match of fix #11.1 and what replaces it. *)
Lemma sub_all_11_1_step (content : str) (b n : nat) (m : marks) :
  sre_search prog_11_1 false content = Some (b, n, m) →
  ∃ pre g0 ws rest,
    content = pre ++ (g0 ++ brace) ++ ws ++ token_anchor ++ rest
    ∧ forallb is_space ws = true
    ∧ startswith verify_anchor g0 = true
    ∧ contains guard_anchor g0 = true
    ∧ sub_all prog_11_1 tmpl_11_1 content
      = pre ++ (g0 ++ brace) ++ inserted_11_1 ++ token_anchor
          ++ sub_all prog_11_1 tmpl_11_1 rest.
Proof.
  intros E. pose proof (search_11_1_nonempty _ _ _ _ E) as Hn.
  pose proof E as (pre & g0 & ws & rest & Hc & Hb & Hlen & Hws & Hv & Hg & Hg1 & Hg2)%search_11_1_inv.
  exists pre, g0, ws, rest. split_and!; try done.
  rewrite (sub_all_some _ _ _ b n m E Hn), expand_11_1, Hg1, Hg2.
  rewrite Hc at 1. rewrite <- Hb, take_app_length.
  rewrite Hc, drop_app_add.
  replace ((g0 ++ brace) ++ ws ++ token_anchor ++ rest)
    with (((g0 ++ brace) ++ ws ++ token_anchor) ++ rest)
    by (by rewrite <- !app_assoc).
  by rewrite Hlen, drop_app_length, <- !app_assoc.
Qed.

(** The inserted text begins with white space and a comment that is not
    the token comment. *)
Lemma inserted_11_1_lead :
  ∃ lead tl,
    inserted_11_1 = lead ++ 47%N :: tl
    ∧ forallb is_space lead = true
    ∧ mismatch token_anchor (47%N :: tl) = true.
Proof. exists (take 6 inserted_11_1), (drop 7 inserted_11_1). by vm_compute. Qed.

(** X6: fix #11.1 leaves a route file unchanged exactly when the file
    does not have the shape that the pattern describes: wherever the
    pattern matches, the result differs from the file. *)
Theorem sub_11_1_unchanged_iff (content : str) :
  sub_11_1 content = Some content ↔ ¬ login_shape content.
Proof.
  rewrite sub_11_1_eq, search_11_1_shape. split.
  - intros [= Heq] [[[b n] m] E].
    destruct (sub_all_11_1_step _ _ _ _ E)
      as (pre & g0 & ws & rest & Hc & Hws & _ & _ & Hsub).
    rewrite Hsub in Heq. rewrite Hc in Heq.
    apply app_inv_head, app_inv_head in Heq.
    destruct inserted_11_1_lead as (lead & tl & Hins & Hlead & Hmis).
    rewrite Hins, <- app_assoc in Heq.
    destruct (span_unique is_space lead ws
                ((47%N :: tl) ++ token_anchor ++ sub_all prog_11_1 tmpl_11_1 rest)
                (token_anchor ++ rest) Heq Hlead Hws) as [_ Heq2].
    + by intros c r [= <- _].
    + by intros c r [= <- _].
    + by apply (mismatch_app_neq _ _ _ _ Hmis) in Heq2.
  - intros Hno. rewrite sub_all_none; [done|].
    destruct (sre_search prog_11_1 false content); [|done].
    exfalso. by apply Hno.
Qed.

Lemma sub_11_1_unchanged_iff_witness :
  sub_11_1 one_endpoint ≠ Some one_endpoint
  ∧ login_shape one_endpoint.
Proof.
  assert (login_shape one_endpoint) as Hshape.
  { apply search_11_1_shape. vm_compute. by eexists. }
  split; [|done].
  intros H. by apply (sub_11_1_unchanged_iff one_endpoint) in H.
Defined.

(** X7: on every route file of the shape, fix #11.1 puts the inserted
    text, with the session line in it, directly before a token
    comment. *)
Theorem sub_11_1_inserts (content : str) :
  login_shape content →
  ∃ out,
    sub_11_1 content = Some out
    ∧ contains (inserted_11_1 ++ token_anchor) out = true
    ∧ contains session_line out = true.
Proof.
  intros [[[b n] m] E]%search_11_1_shape.
  destruct (sub_all_11_1_step _ _ _ _ E)
    as (pre & g0 & ws & rest & _ & _ & _ & _ & Hsub).
  exists (sub_all prog_11_1 tmpl_11_1 content).
  split; [apply sub_11_1_eq|]. rewrite Hsub. split.
  - apply contains_iff.
    exists (pre ++ g0 ++ brace), (sub_all prog_11_1 tmpl_11_1 rest).
    by rewrite <- !app_assoc.
  - assert (contains session_line inserted_11_1 = true) as Hin by (by vm_compute).
    apply contains_iff in Hin as (u & v & ->). apply contains_iff.
    exists (pre ++ (g0 ++ brace) ++ u),
           (v ++ token_anchor ++ sub_all prog_11_1 tmpl_11_1 rest).
    by rewrite <- !app_assoc.
Qed.

Lemma sub_11_1_inserts_witness :
  ∃ out,
    sub_11_1 one_endpoint = Some out
    ∧ contains (inserted_11_1 ++ token_anchor) out = true
    ∧ contains session_line out = true.
Proof.
  apply (sub_11_1_inserts one_endpoint).
  exists (lit ("app.post('/login', async (req, res) => {" +:+ nl +:+ "  ")),
    (lit (nl +:+ "  ")),
    (lit (nl +:+ "    if (strict) { return res.status(401).end(); ")),
    (lit (nl +:+ "  ")), (lit (nl +:+ "  ")),
    (lit (nl +:+ "  const token = sign(user);" +:+ nl +:+ "});")).
  vm_compute. done.
Defined.

(** X8: a route file that lacks the verification comment, the guard or
    the token comment is left unchanged by fix #11.1. *)
Theorem sub_11_1_needs_anchors (content : str) :
  contains verify_anchor content = false
  ∨ contains guard_anchor content = false
  ∨ contains token_anchor content = false →
  sub_11_1 content = Some content.
Proof.
  intros H. apply sub_11_1_unchanged_iff.
  intros (pre & x & y & w1 & w2 & rest & -> & _).
  assert (∀ p s, contains p s = false → contains p s = true → False) as Hno
    by (intros p s -> [=]).
  destruct H as [H|[H|H]]; apply (Hno _ _ H), contains_iff.
  - by exists pre, (x ++ guard_anchor ++ y ++ brace ++ w1 ++ brace ++ w2
                     ++ token_anchor ++ rest).
  - exists (pre ++ verify_anchor ++ x),
      (y ++ brace ++ w1 ++ brace ++ w2 ++ token_anchor ++ rest).
    by rewrite <- !app_assoc.
  - exists (pre ++ verify_anchor ++ x ++ guard_anchor ++ y ++ brace ++ w1
              ++ brace ++ w2), rest.
    by rewrite <- !app_assoc.
Qed.

Lemma sub_11_1_needs_anchors_witness :
  sub_11_1 unverified_endpoint = Some unverified_endpoint.
Proof.
  apply (sub_11_1_needs_anchors unverified_endpoint).
  left. vm_compute. reflexivity.
Defined.

(** *** When fix #11.3 changes the client file *)



(** X10: a client file that lacks the signature, the headers comment or
    a [});] is left unchanged by fix #11.3. *)
Theorem sub_11_3_needs_anchors (content : str) :
  contains signature_11_3 content = false
  ∨ contains headers_anchor content = false
  ∨ contains closing_11_3 content = false →
  sub_11_3 content = Some content.
Proof.
  intros H. rewrite sub_11_3_eq, sub_all_none; [done|].
  destruct (sre_search prog_11_3 false content) as [r|] eqn:E; [|done].
  exfalso.
  destruct (proj2 (search_11_3_shape content))
    as (pre & ws & body & rest & -> & _); [by rewrite E|].
  assert (∀ p s, contains p s = false → contains p s = true → False) as Hno
    by (intros p s -> [=]).
  destruct H as [H|[H|H]]; apply (Hno _ _ H), contains_iff.
  - by exists pre, (ws ++ headers_anchor ++ body ++ closing_11_3 ++ rest).
  - exists (pre ++ signature_11_3 ++ ws), (body ++ closing_11_3 ++ rest).
    by rewrite <- !app_assoc.
  - exists (pre ++ signature_11_3 ++ ws ++ headers_anchor ++ body), rest.
    by rewrite <- !app_assoc.
Qed.

Lemma sub_11_3_needs_anchors_witness :
  sub_11_3 one_endpoint = Some one_endpoint.
Proof.
  apply (sub_11_3_needs_anchors one_endpoint). left. vm_compute. reflexivity.
Defined.

(** *** Fix #11.2 applied twice *)

(** X11: a second application of fix #11.2 shortens the result of the
    first by the 16 characters of [ || req.user?.id] for every
    occurrence of the expression that this text followed in the file;
    it changes nothing exactly when there was no such occurrence. *)
Theorem replace_11_2_twice (content : str) :
  length (replace_11_2 content)
  = length (replace_11_2 (replace_11_2 content))
    + 16 * occurrences (old_11_2 ++ dropped_11_2) content
  ∧ (replace_11_2 (replace_11_2 content) = replace_11_2 content
     ↔ occurrences (old_11_2 ++ dropped_11_2) content = 0).
Proof.
  assert (occurrences old_11_2 (replace_11_2 content)
          = occurrences (old_11_2 ++ dropped_11_2) content) as Hocc.
  { unfold replace_11_2. rewrite old_11_2_eq.
    apply occurrences_old_replace;
      [apply new_11_2_nonempty | vm_compute; lia | by vm_compute..]. }
  assert (length (replace_11_2 content)
          = length (replace_11_2 (replace_11_2 content))
            + 16 * occurrences (old_11_2 ++ dropped_11_2) content) as Hlen.
  { pose proof (str_replace_length old_11_2 new_11_2 (replace_11_2 content)
                  old_11_2_nonempty ltac:(by vm_compute)) as H.
    change (length old_11_2) with 35 in H. change (length new_11_2) with 19 in H.
    fold (replace_11_2 (replace_11_2 content)) in H. rewrite Hocc in H. lia. }
  split; [done|]. split.
  - intros Heq. rewrite Heq in Hlen. lia.
  - intros H0. apply str_replace_absent. by rewrite Hocc.
Qed.

(** *** The client file after a run *)

(** X12: a run that finds both files fit for reading and writing leaves
    in the client file the result of the substitution of fix #11.3 on
    the text read from it, whatever the route file holds: the fixes of
    the route file do not reach it. *)
Theorem client_after_main (w : world) (routes api : str) :
  files w !! routes_ts = Some (text_file routes) →
  files w !! api_ts = Some (text_file api) →
  ∃ fixed,
    sub_11_3 (universal_newlines api) = Some fixed
    ∧ files (snd (main w)) !! api_ts = Some (stored (platform w) fixed)
    ∧ fst (read api_ts (snd (main w))) = inr fixed.
Proof.
  intros Hr Ha. exists (sub_all prog_11_3 tmpl_11_3 (universal_newlines api)).
  split; [apply sub_11_3_eq|].
  rewrite (main_run w routes api) by done. cbn [snd files].
  split; [apply lookup_insert_eq|].
  erewrite read_text by (cbn [files]; apply lookup_insert_eq). cbn [fst].
  f_equal. apply universal_newlines_to_linesep, no_cr_sub_11_3,
    no_cr_universal_newlines.
Qed.

Lemma client_after_main_witness :
  ∃ fixed,
    sub_11_3 two_requests = Some fixed
    ∧ files (snd (main other_files)) !! api_ts = Some (text_file fixed).
Proof.
  destruct (client_after_main other_files two_endpoints two_requests)
    as (fixed & H1 & H2 & _); [vm_compute; reflexivity..|].
  exists fixed. split; [exact H1|]. rewrite H2. unfold stored.
  by rewrite to_linesep_posix.
Defined.

Lemma replace_11_2_twice_witness :
  replace_11_2 (replace_11_2 chained_check) ≠ replace_11_2 chained_check
  ∧ replace_11_2 (replace_11_2 three_checks) = replace_11_2 three_checks.
Proof.
  split.
  - intros H. apply (replace_11_2_twice chained_check) in H.
    vm_compute in H. discriminate H.
  - apply (replace_11_2_twice three_checks). vm_compute. reflexivity.
Defined.

(** ** The two fixes of the route file do not disturb each other *)

Lemma untouched_verify : untouched_11_2 verify_anchor = true.
Proof. by vm_compute. Qed.

Lemma untouched_guard : untouched_11_2 guard_anchor = true.
Proof. by vm_compute. Qed.

Lemma untouched_brace : untouched_11_2 brace = true.
Proof. by vm_compute. Qed.

Lemma untouched_token : untouched_11_2 token_anchor = true.
Proof. by vm_compute. Qed.

Lemma untouched_inv (a : str) :
  untouched_11_2 a = true →
  no_start old_11_2 a = true ∧ suffixes_clash old_11_2 a = true
  ∧ suffixes_clash new_11_2 a = true ∧ suffixes_clash (tail a) new_11_2 = true.
Proof.
  unfold untouched_11_2. intros H.
  apply andb_prop in H as [H H4]. apply andb_prop in H as [H H3].
  by apply andb_prop in H as [H1 H2].
Qed.

(** The replacement of fix #11.2 works on the two sides of such a text
    separately, and every such text in its result stems from the same
    text in its argument. *)
Lemma replace_11_2_around (a u v : str) :
  untouched_11_2 a = true →
  replace_11_2 (u ++ a ++ v) = replace_11_2 u ++ a ++ replace_11_2 v.
Proof.
  intros (H1 & H2 & _)%untouched_inv.
  by apply str_replace_around; [apply old_11_2_nonempty|..].
Qed.

Lemma replace_11_2_back (a s u v : str) :
  untouched_11_2 a = true → a ≠ [] →
  replace_11_2 s = u ++ a ++ v →
  ∃ u' v', s = u' ++ a ++ v' ∧ replace_11_2 u' = u ∧ replace_11_2 v' = v.
Proof.
  intros (H1 & H2 & H3 & H4)%untouched_inv Ha.
  unfold replace_11_2. rewrite old_11_2_eq in *.
  by apply str_replace_split_back; [apply new_11_2_nonempty|..].
Qed.

Lemma replace_11_2_spaces (w : str) :
  forallb is_space w = true → replace_11_2 w = w.
Proof.
  induction w as [|c w IH]; [done|]. cbn [forallb].
  intros [Hc Hw]%andb_prop. unfold replace_11_2.
  rewrite str_replace_miss; [by f_equal; apply IH | apply old_11_2_nonempty |].
  change old_11_2 with (114%N :: tail old_11_2). cbn [startswith].
  destruct (N.eqb_spec 114 c) as [<-|]; [|done]. by vm_compute in Hc.
Qed.

Lemma replace_11_2_spaces_back (s : str) :
  forallb is_space (replace_11_2 s) = true → replace_11_2 s = s.
Proof.
  unfold replace_11_2. revert s.
  apply (scan_ind old_11_2
           (λ s, forallb is_space (str_replace old_11_2 new_11_2 s) = true →
                 str_replace old_11_2 new_11_2 s = s)).
  - apply old_11_2_nonempty.
  - intros _. apply str_replace_nil, old_11_2_nonempty.
  - intros t _. rewrite str_replace_hit by apply old_11_2_nonempty.
    change new_11_2 with (114%N :: tail new_11_2). cbn [app forallb].
    intros H. by vm_compute in H.
  - intros c t Hc IH. rewrite str_replace_miss by (done || apply old_11_2_nonempty).
    cbn [forallb]. intros [_ Ht]%andb_prop. f_equal. by apply IH.
Qed.

Lemma verify_anchor_nonempty : verify_anchor ≠ [].
Proof. intros H. vm_compute in H. discriminate H. Qed.

Lemma guard_anchor_nonempty : guard_anchor ≠ [].
Proof. intros H. vm_compute in H. discriminate H. Qed.

Lemma brace_nonempty : brace ≠ [].
Proof. intros H. vm_compute in H. discriminate H. Qed.

(** So the replacement keeps the parts of a text of the shape, and every
    text of the shape in its result stems from one in its argument. *)
Lemma replace_11_2_closing (y w1 w2 rest : str) :
  forallb is_space w1 = true → forallb is_space w2 = true →
  replace_11_2 (y ++ closing_text w1 w2 rest)
  = replace_11_2 y ++ closing_text w1 w2 (replace_11_2 rest).
Proof.
  intros Hw1 Hw2. unfold closing_text.
  rewrite 2!(replace_11_2_around brace) by apply untouched_brace.
  rewrite (replace_11_2_around token_anchor) by apply untouched_token.
  by rewrite (replace_11_2_spaces w1), (replace_11_2_spaces w2).
Qed.

Lemma replace_11_2_closing_back (s y2 w1 w2 r2 : str) :
  forallb is_space w1 = true → forallb is_space w2 = true →
  replace_11_2 s = y2 ++ closing_text w1 w2 r2 →
  ∃ y r, s = y ++ closing_text w1 w2 r
         ∧ replace_11_2 y = y2 ∧ replace_11_2 r = r2.
Proof.
  unfold closing_text. intros Hw1 Hw2 E.
  apply (replace_11_2_back brace _ y2) in E as (y & v1 & -> & Hy & E);
    [| apply untouched_brace | apply brace_nonempty].
  apply (replace_11_2_back brace _ w1) in E as (w1' & v2 & -> & Hw1' & E);
    [| apply untouched_brace | apply brace_nonempty].
  apply (replace_11_2_back token_anchor _ w2) in E as (w2' & r & -> & Hw2' & Hr);
    [| apply untouched_token | apply token_anchor_nonempty].
  assert (w1' = w1) as ->.
  { rewrite <- Hw1' in Hw1. apply replace_11_2_spaces_back in Hw1. congruence. }
  assert (w2' = w2) as ->.
  { rewrite <- Hw2' in Hw2. apply replace_11_2_spaces_back in Hw2. congruence. }
  by exists y, r.
Qed.

Lemma replace_11_2_guard (x y w1 w2 rest : str) :
  forallb is_space w1 = true → forallb is_space w2 = true →
  replace_11_2 (x ++ guard_anchor ++ y ++ closing_text w1 w2 rest)
  = replace_11_2 x ++ guard_anchor ++ replace_11_2 y
      ++ closing_text w1 w2 (replace_11_2 rest).
Proof.
  intros Hw1 Hw2.
  rewrite (replace_11_2_around guard_anchor) by apply untouched_guard.
  by rewrite replace_11_2_closing.
Qed.

Lemma replace_11_2_guard_back (s x2 y2 w1 w2 r2 : str) :
  forallb is_space w1 = true → forallb is_space w2 = true →
  replace_11_2 s = x2 ++ guard_anchor ++ y2 ++ closing_text w1 w2 r2 →
  ∃ x y r, s = x ++ guard_anchor ++ y ++ closing_text w1 w2 r
           ∧ replace_11_2 x = x2 ∧ replace_11_2 y = y2 ∧ replace_11_2 r = r2.
Proof.
  intros Hw1 Hw2 E.
  apply (replace_11_2_back guard_anchor _ x2) in E as (x & v & -> & Hx & E);
    [| apply untouched_guard | apply guard_anchor_nonempty].
  apply replace_11_2_closing_back in E as (y & r & -> & Hy & Hr); [|done..].
  by exists x, y, r.
Qed.

Lemma replace_11_2_match (pre x y w1 w2 rest : str) :
  forallb is_space w1 = true → forallb is_space w2 = true →
  replace_11_2 (pre ++ verify_anchor ++ x ++ guard_anchor ++ y
                  ++ closing_text w1 w2 rest)
  = replace_11_2 pre ++ verify_anchor ++ replace_11_2 x ++ guard_anchor
      ++ replace_11_2 y ++ closing_text w1 w2 (replace_11_2 rest).
Proof.
  intros Hw1 Hw2.
  rewrite (replace_11_2_around verify_anchor) by apply untouched_verify.
  by rewrite replace_11_2_guard.
Qed.

Lemma replace_11_2_match_back (s p2 x2 y2 w1 w2 r2 : str) :
  forallb is_space w1 = true → forallb is_space w2 = true →
  replace_11_2 s = p2 ++ verify_anchor ++ x2 ++ guard_anchor ++ y2
                     ++ closing_text w1 w2 r2 →
  ∃ pre x y r, s = pre ++ verify_anchor ++ x ++ guard_anchor ++ y
                     ++ closing_text w1 w2 r
               ∧ replace_11_2 pre = p2 ∧ replace_11_2 x = x2
               ∧ replace_11_2 y = y2 ∧ replace_11_2 r = r2.
Proof.
  intros Hw1 Hw2 E.
  apply (replace_11_2_back verify_anchor _ p2) in E as (pre & v & -> & Hp & E);
    [| apply untouched_verify | apply verify_anchor_nonempty].
  apply replace_11_2_guard_back in E as (x & y & r & -> & Hx & Hy & Hr); [|done..].
  by exists pre, x, y, r.
Qed.

(** The replacement neither gives a route file the shape that fix #11.1
    looks for nor takes it away. *)
Lemma login_shape_replace_11_2 (content : str) :
  login_shape (replace_11_2 content) ↔ login_shape content.
Proof.
  split.
  - intros (p2 & x2 & y2 & w1 & w2 & r2 & E & Hw1 & Hw2).
    apply replace_11_2_match_back in E as (pre & x & y & r & -> & _); [|done..].
    by exists pre, x, y, w1, w2, r.
  - intros (pre & x & y & w1 & w2 & rest & -> & Hw1 & Hw2).
    exists (replace_11_2 pre), (replace_11_2 x), (replace_11_2 y), w1, w2,
      (replace_11_2 rest).
    split; [|done]. by apply replace_11_2_match.
Qed.

(** *** The leftmost match of fix #11.1 *)

Lemma prog_11_1_eq :
  prog_11_1 = MARK 0 :: lits verify_anchor ++ MIN_REPEAT ANY_ALL :: prog_11_1_guard.
Proof. reflexivity. Qed.

Lemma closing_complete (ma : bool) (m : marks) (n : nat) (t : str) :
  closing_shape t → is_Some (sre_match prog_11_1_closing ma m n t).
Proof.
  intros (w1 & w2 & rest & -> & Hw1 & Hw2).
  unfold prog_11_1_closing, closing_text.
  rewrite match_lits_intro. cbn [sre_match].
  apply max_repeat_complete; [done|].
  rewrite match_lits_intro. cbn [sre_match].
  apply max_repeat_complete; [done|]. cbn [sre_match].
  rewrite match_lits_intro. cbn [sre_match].
  assert (0 < length brace) by (vm_compute; lia).
  rewrite (proj2 (Nat.eqb_neq _ 0)) by lia. by rewrite andb_false_r.
Qed.

Lemma guard_complete (ma : bool) (m : marks) (n : nat) (t : str) :
  guard_shape t → is_Some (sre_match prog_11_1_guard ma m n t).
Proof.
  intros (y & u & -> & Hu). unfold prog_11_1_guard.
  rewrite match_lits_intro. cbn [sre_match].
  apply min_repeat_complete; [apply forallb_any|]. by apply closing_complete.
Qed.

Lemma match_complete (ma : bool) (t : str) :
  match_shape t → is_Some (sre_match prog_11_1 ma ∅ 0 t).
Proof.
  intros (x & u & -> & y & v & -> & w1 & w2 & rest & -> & Hw1 & Hw2).
  by apply match_11_1_complete.
Qed.

(** A match of the pattern, with the places at which the two lazy
    repetitions stop. *)
Lemma match_11_1_inv_first (ma : bool) (ms : str) (n : nat) (m : marks) :
  sre_match prog_11_1 ma ∅ 0 ms = Some (n, m) →
  ∃ x y w1 w2 rest,
    let g1 := verify_anchor ++ x ++ guard_anchor ++ y ++ brace ++ w1 ++ brace in
    ms = g1 ++ w2 ++ token_anchor ++ rest
    ∧ forallb is_space w1 = true
    ∧ forallb is_space w2 = true
    ∧ n = length (g1 ++ w2 ++ token_anchor)
    ∧ group 1 m ms = g1
    ∧ group 2 m ms = token_anchor
    ∧ (∀ p t, x ++ guard_anchor ++ y ++ closing_text w1 w2 rest = p ++ t →
              guard_shape t → length x ≤ length p)
    ∧ (∀ p t, y ++ closing_text w1 w2 rest = p ++ t →
              closing_shape t → length y ≤ length p).
Proof.
  rewrite prog_11_1_eq. intros H.
  apply match_mark_inv, match_lits_inv in H as (t1 & -> & H).
  apply match_min_first in H as (x & t2 & -> & _ & H & Hx).
  assert (∀ p t, x ++ t2 = p ++ t → guard_shape t → length x ≤ length p) as Hx'.
  { intros p t E Hg. destruct (decide (length x ≤ length p)) as [|Hlt]; [done|].
    exfalso. specialize (Hx (length p) ltac:(lia)).
    rewrite E, drop_app_length in Hx.
    destruct (guard_complete ma (<[0:=0]> ∅) (0 + length verify_anchor + length p) t Hg)
      as [r Hr]. congruence. }
  clear Hx. unfold prog_11_1_guard in H.
  apply match_lits_inv in H as (t3 & -> & H).
  apply match_min_first in H as (y & t4 & -> & _ & H & Hy).
  assert (∀ p t, y ++ t4 = p ++ t → closing_shape t → length y ≤ length p) as Hy'.
  { intros p t E Hg. destruct (decide (length y ≤ length p)) as [|Hlt]; [done|].
    exfalso. specialize (Hy (length p) ltac:(lia)).
    rewrite E, drop_app_length in Hy.
    destruct (closing_complete ma (<[0:=0]> ∅)
                (0 + length verify_anchor + length x + length guard_anchor + length p)
                t Hg) as [r Hr]. congruence. }
  clear Hy. unfold prog_11_1_closing in H.
  apply match_lits_inv in H as (t5 & -> & H).
  apply match_max_inv in H as (w1 & t6 & -> & Hw1 & H).
  apply match_lits_inv in H as (t7 & -> & H).
  apply match_mark_inv, match_max_inv in H as (w2 & t8 & -> & Hw2 & H).
  apply match_mark_inv, match_lits_inv in H as (rest & -> & H).
  apply match_mark_inv, match_end_inv in H as [-> ->].
  exists x, y, w1, w2, rest. cbn zeta.
  split; [by rewrite <- !app_assoc|].
  split_and!; [done | done | rewrite !length_app; lia | | | exact Hx' | exact Hy'].
  - erewrite group_eq;
      [| by rewrite !lookup_insert_ne, lookup_insert_eq by done
       | by rewrite !lookup_insert_ne, lookup_insert_eq by done].
    rewrite Nat.sub_0_r, drop_0.
    rewrite 6!app_assoc. rewrite take_app_length'; [by rewrite <- !app_assoc|].
    rewrite !length_app. lia.
  - erewrite group_eq;
      [| by rewrite !lookup_insert_ne, lookup_insert_eq by done
       | by rewrite lookup_insert_eq].
    rewrite 7!app_assoc. rewrite drop_app_length'; [|rewrite !length_app; lia].
    apply take_app_length'. lia.
Qed.

Lemma closing_shape_intro (w1 w2 rest : str) :
  forallb is_space w1 = true → forallb is_space w2 = true →
  closing_shape (closing_text w1 w2 rest).
Proof. intros Hw1 Hw2. by exists w1, w2, rest. Qed.

Lemma guard_shape_intro (y w1 w2 rest : str) :
  forallb is_space w1 = true → forallb is_space w2 = true →
  guard_shape (guard_anchor ++ y ++ closing_text w1 w2 rest).
Proof.
  intros Hw1 Hw2. exists y, (closing_text w1 w2 rest).
  split; [done|]. by apply closing_shape_intro.
Qed.

Lemma match_shape_intro (x y w1 w2 rest : str) :
  forallb is_space w1 = true → forallb is_space w2 = true →
  match_shape (verify_anchor ++ x ++ guard_anchor ++ y ++ closing_text w1 w2 rest).
Proof.
  intros Hw1 Hw2. exists x, (guard_anchor ++ y ++ closing_text w1 w2 rest).
  split; [done|]. by apply guard_shape_intro.
Qed.

(** What the search finds is the leftmost match in this sense, and the
    substitution replaces it and goes on behind it. *)
Lemma search_11_1_first (c : str) (b n : nat) (m : marks) :
  sre_search prog_11_1 false c = Some (b, n, m) →
  ∃ pre x y w1 w2 rest,
    first_match c pre x y w1 w2 rest
    ∧ sub_all prog_11_1 tmpl_11_1 c
      = pre ++ verify_anchor ++ x ++ guard_anchor ++ y ++ brace ++ w1 ++ brace
          ++ inserted_11_1 ++ token_anchor ++ sub_all prog_11_1 tmpl_11_1 rest.
Proof.
  intros E. pose proof (search_11_1_nonempty _ _ _ _ E) as Hn.
  pose proof (sub_all_some prog_11_1 tmpl_11_1 c b n m E Hn) as Hsub.
  pose proof (λ i, sre_search_leftmost _ _ _ _ _ _ i E) as Hleft.
  destruct (search_inv _ _ _ _ _ _ E) as (pre & ms & -> & Hb & Hm).
  apply match_11_1_inv_first in Hm
    as (x & y & w1 & w2 & rest & Hms & Hw1 & Hw2 & Hlen & Hg1 & Hg2 & Hx & Hy).
  cbn zeta in Hms, Hlen, Hg1.
  exists pre, x, y, w1, w2, rest. split.
  - split_and!; [ | done | done | | done | done].
    + rewrite Hms. unfold closing_text. by rewrite <- !app_assoc.
    + intros p t Ec Ht.
      destruct (decide (length pre ≤ length p)) as [|Hlt]; [done|].
      exfalso. specialize (Hleft (length p) ltac:(lia)).
      rewrite Ec, drop_app_length in Hleft. cbn [andb] in Hleft.
      destruct (match_complete false t Ht) as [r Hr]. congruence.
  - subst b. rewrite Hsub, take_app_length, drop_app_length, drop_app_add.
    rewrite expand_11_1, Hg1, Hg2, Hlen. rewrite Hms.
    replace ((verify_anchor ++ x ++ guard_anchor ++ y ++ brace ++ w1 ++ brace)
               ++ w2 ++ token_anchor ++ rest)
      with (((verify_anchor ++ x ++ guard_anchor ++ y ++ brace ++ w1 ++ brace)
               ++ w2 ++ token_anchor) ++ rest)
      by (by rewrite <- !app_assoc).
    by rewrite drop_app_length, <- !app_assoc.
Qed.

Lemma first_match_unique (c pre x y w1 w2 rest pre' x' y' w1' w2' rest' : str) :
  first_match c pre x y w1 w2 rest →
  first_match c pre' x' y' w1' w2' rest' →
  pre' = pre ∧ x' = x ∧ y' = y ∧ w1' = w1 ∧ w2' = w2 ∧ rest' = rest.
Proof.
  intros (Hc & Hw1 & Hw2 & Hp & Hx & Hy) (Hc' & Hw1' & Hw2' & Hp' & Hx' & Hy').
  assert (length pre' = length pre) as Hlp.
  { apply Nat.le_antisymm.
    - apply (Hp' pre _ Hc). by apply match_shape_intro.
    - apply (Hp pre' _ Hc'). by apply match_shape_intro. }
  rewrite Hc in Hc'. apply app_inj_1 in Hc' as [<- Hc']; [|done].
  apply app_inv_head in Hc'.
  assert (length x' = length x) as Hlx.
  { apply Nat.le_antisymm.
    - apply (Hx' x _ (eq_sym Hc')). by apply guard_shape_intro.
    - apply (Hx x' _ Hc'). by apply guard_shape_intro. }
  apply app_inj_1 in Hc' as [<- Hc']; [|done].
  apply app_inv_head in Hc'.
  assert (length y' = length y) as Hly.
  { apply Nat.le_antisymm.
    - apply (Hy' y _ (eq_sym Hc')). by apply closing_shape_intro.
    - apply (Hy y' _ Hc'). by apply closing_shape_intro. }
  apply app_inj_1 in Hc' as [<- Hc']; [|done].
  unfold closing_text in Hc'. apply app_inv_head in Hc'.
  apply (span_unique is_space) in Hc' as [<- Hc']; [|done|done| |];
    [| intros c0 r Heq; change brace with [125%N] in Heq;
       injection Heq as <- _; by vm_compute..].
  apply app_inv_head in Hc'.
  apply (span_unique is_space) in Hc' as [<- Hc']; [|done|done| |];
    [| intros c0 r Heq; change token_anchor with (47%N :: tail token_anchor) in Heq;
       injection Heq as <- _; by vm_compute..].
  by apply app_inv_head in Hc' as <-.
Qed.

(** The replacement of fix #11.2 maps the leftmost match to the leftmost
    match. *)
Lemma first_match_replace_11_2 (c pre x y w1 w2 rest : str) :
  first_match c pre x y w1 w2 rest →
  first_match (replace_11_2 c) (replace_11_2 pre) (replace_11_2 x)
    (replace_11_2 y) w1 w2 (replace_11_2 rest).
Proof.
  intros (-> & Hw1 & Hw2 & Hp & Hx & Hy).
  split_and!; [by apply replace_11_2_match | done | done | | |].
  - intros p2 t2 E (x2 & u & -> & y2 & v & -> & w1' & w2' & r2 & -> & Hw1' & Hw2').
    apply replace_11_2_match_back in E as (p' & x' & y' & r' & E & <- & _);
      [|done..].
    pose proof (Hp p' _ E (match_shape_intro _ _ _ _ _ Hw1' Hw2')) as Hle.
    destruct (decide (length pre = length p')) as [Heq|Hne].
    + by apply app_inj_1 in E as [-> _].
    + apply Nat.lt_le_incl.
      destruct (untouched_inv _ untouched_verify) as (H1 & H2 & _).
      apply (str_replace_prefix_lt old_11_2 new_11_2 verify_anchor _ _ _ _
               old_11_2_nonempty verify_anchor_nonempty H1 H2 eq_refl E).
      lia.
  - intros p2 t2 E (y2 & u & -> & w1' & w2' & r2 & -> & Hw1' & Hw2').
    rewrite <- replace_11_2_guard in E by done.
    apply replace_11_2_guard_back in E as (x' & y' & r' & E & <- & _); [|done..].
    pose proof (Hx x' _ E (guard_shape_intro _ _ _ _ Hw1' Hw2')) as Hle.
    destruct (decide (length x = length x')) as [Heq|Hne].
    + by apply app_inj_1 in E as [-> _].
    + apply Nat.lt_le_incl.
      destruct (untouched_inv _ untouched_guard) as (H1 & H2 & _).
      apply (str_replace_prefix_lt old_11_2 new_11_2 guard_anchor _ _ _ _
               old_11_2_nonempty guard_anchor_nonempty H1 H2 eq_refl E).
      lia.
  - intros p2 t2 E (w1' & w2' & r2 & -> & Hw1' & Hw2').
    rewrite <- replace_11_2_closing in E by done.
    apply replace_11_2_closing_back in E as (y' & r' & E & <- & _); [|done..].
    pose proof (Hy y' _ E (closing_shape_intro _ _ _ Hw1' Hw2')) as Hle.
    destruct (decide (length y = length y')) as [Heq|Hne].
    + by apply app_inj_1 in E as [-> _].
    + apply Nat.lt_le_incl.
      destruct (untouched_inv _ untouched_brace) as (H1 & H2 & _).
      apply (str_replace_prefix_lt old_11_2 new_11_2 brace _ _ _ _
               old_11_2_nonempty brace_nonempty H1 H2 eq_refl E).
      lia.
Qed.

Lemma replace_11_2_inserted : replace_11_2 inserted_11_1 = inserted_11_1.
Proof. by vm_compute. Qed.

(** The substitution of fix #11.1 and the replacement of fix #11.2 can
    be exchanged. *)
Lemma sub_all_11_1_replace_11_2 (c : str) :
  sub_all prog_11_1 tmpl_11_1 (replace_11_2 c)
  = replace_11_2 (sub_all prog_11_1 tmpl_11_1 c).
Proof.
  induction c as [c IH] using (induction_ltof1 _ (@length char)).
  unfold ltof in IH.
  destruct (sre_search prog_11_1 false c) as [[[b n] m]|] eqn:E.
  - destruct (search_11_1_first c b n m E)
      as (pre & x & y & w1 & w2 & rest & Hf & ->).
    pose proof (first_match_replace_11_2 _ _ _ _ _ _ _ Hf) as Hf2.
    assert (login_shape (replace_11_2 c)) as Hl.
    { apply login_shape_replace_11_2, search_11_1_shape. by rewrite E. }
    apply search_11_1_shape in Hl as [[[b2 n2] m2] E2].
    destruct (search_11_1_first _ b2 n2 m2 E2)
      as (pre2 & x2 & y2 & w12 & w22 & rest2 & Hf3 & ->).
    destruct (first_match_unique _ _ _ _ _ _ _ _ _ _ _ _ _ Hf2 Hf3)
      as (-> & -> & -> & -> & -> & ->).
    destruct Hf as (Hc & Hw1 & Hw2 & _).
    rewrite IH.
    2:{ rewrite Hc. unfold closing_text. rewrite !length_app.
        assert (0 < length verify_anchor) by (vm_compute; lia). lia. }
    rewrite (replace_11_2_around verify_anchor) by apply untouched_verify.
    rewrite (replace_11_2_around guard_anchor) by apply untouched_guard.
    rewrite 2!(replace_11_2_around brace) by apply untouched_brace.
    rewrite (replace_11_2_around token_anchor) by apply untouched_token.
    by rewrite (replace_11_2_spaces w1), replace_11_2_inserted.
  - rewrite (sub_all_none _ _ c E). apply sub_all_none.
    destruct (sre_search prog_11_1 false (replace_11_2 c)) eqn:E2; [|done].
    assert (login_shape c) as Hl.
    { apply login_shape_replace_11_2, search_11_1_shape. by rewrite E2. }
    apply search_11_1_shape in Hl as [r Hr]. congruence.
Qed.

(** X13: the text changes of fix #11.1 and fix #11.2 can be exchanged: on
    every route file, making the replacement of fix #11.2 first and the
    substitution of fix #11.1 second gives the text that the order of the
    script gives.  The replacement neither makes nor unmakes a match of
    the pattern, and it leaves the inserted lines as they are. *)
Theorem sub_11_1_replace_11_2_exchange (content : str) :
  sub_11_1 (replace_11_2 content) = replace_11_2 <$> sub_11_1 content.
Proof.
  rewrite !sub_11_1_eq. cbn [fmap option_fmap option_map].
  by rewrite sub_all_11_1_replace_11_2.
Qed.

(** Fix #11.1 reads the text that fix #11.2 has written. *)
Lemma read_back_11_2 (p : os) (raw : str) :
  universal_newlines (to_linesep p (replace_11_2 (universal_newlines raw)))
  = replace_11_2 (universal_newlines raw).
Proof.
  apply universal_newlines_to_linesep, no_cr_replace_11_2,
    no_cr_universal_newlines.
Qed.

(** The two orders of the steps fix #11.1 and fix #11.2, by what the
    access to the route file gives. *)
Lemma route_fixes_by_access (w : world) :
  match access_error (platform w) routes_ts (files w !! routes_ts) with
  | None =>
      fst ((fix_11_1;; fix_11_2) w) = inr ()
      ∧ fst ((fix_11_2;; fix_11_1) w) = inr ()
      ∧ files (snd ((fix_11_1;; fix_11_2) w))
        = files (snd ((fix_11_2;; fix_11_1) w))
      ∧ console (snd ((fix_11_1;; fix_11_2) w))
        = console w ++ ["Fix #11.1: Adding req.session.userId to login endpoint...";
                        "✓ Fix #11.1 complete";
                        "Fix #11.2: Simplifying auth checks...";
                        "✓ Fix #11.2 complete"]
      ∧ console (snd ((fix_11_2;; fix_11_1) w))
        = console w ++ ["Fix #11.2: Simplifying auth checks...";
                        "✓ Fix #11.2 complete";
                        "Fix #11.1: Adding req.session.userId to login endpoint...";
                        "✓ Fix #11.1 complete"]
  | Some e =>
      fst ((fix_11_1;; fix_11_2) w) = inl e
      ∧ fst ((fix_11_2;; fix_11_1) w) = inl e
      ∧ files (snd ((fix_11_1;; fix_11_2) w)) = files w
      ∧ files (snd ((fix_11_2;; fix_11_1) w)) = files w
      ∧ console (snd ((fix_11_1;; fix_11_2) w))
        = console w ++ ["Fix #11.1: Adding req.session.userId to login endpoint..."]
      ∧ console (snd ((fix_11_2;; fix_11_1) w))
        = console w ++ ["Fix #11.2: Simplifying auth checks..."]
  end.
Proof.
  rewrite !bind_run.
  destruct (access_error (platform w) routes_ts (files w !! routes_ts)) as [e|] eqn:E.
  - by rewrite (fix_11_1_fails w e E), (fix_11_2_fails w e E).
  - apply (access_error_none (platform w) routes_ts) in E as [raw E].
    rewrite (fix_11_1_run w raw E), (fix_11_2_run w raw E).
    rewrite (fix_11_2_run _ _ (lookup_insert_eq _ _ _)).
    rewrite (fix_11_1_run _ _ (lookup_insert_eq _ _ _)).
    cbn [fst snd files console platform].
    rewrite !insert_insert_eq, read_back_11_1, read_back_11_2.
    rewrite sub_all_11_1_replace_11_2, <- !app_assoc.
    by split_and!.
Qed.

(** X14: the steps fix #11.1 and fix #11.2 can be run in either order.
    In every world both orders end in the same way and leave the same
    files.  Where the route file is fit for reading and writing, both
    orders finish and print the same four lines, each step its two, in
    the order of the steps; where it is not, both orders raise the same
    exception, nothing is written, and each order prints only the
    announcement of the step that it begins with. *)
Theorem route_fixes_either_order (w : world) :
  fst ((fix_11_1;; fix_11_2) w) = fst ((fix_11_2;; fix_11_1) w)
  ∧ files (snd ((fix_11_1;; fix_11_2) w)) = files (snd ((fix_11_2;; fix_11_1) w))
  ∧ ((∃ raw, files w !! routes_ts = Some (text_file raw)) →
     fst ((fix_11_1;; fix_11_2) w) = inr ()
     ∧ console (snd ((fix_11_1;; fix_11_2) w))
       = console w ++ ["Fix #11.1: Adding req.session.userId to login endpoint...";
                       "✓ Fix #11.1 complete";
                       "Fix #11.2: Simplifying auth checks...";
                       "✓ Fix #11.2 complete"]
     ∧ console (snd ((fix_11_2;; fix_11_1) w))
       = console w ++ ["Fix #11.2: Simplifying auth checks...";
                       "✓ Fix #11.2 complete";
                       "Fix #11.1: Adding req.session.userId to login endpoint...";
                       "✓ Fix #11.1 complete"])
  ∧ ((∀ raw, files w !! routes_ts ≠ Some (text_file raw)) →
     (∃ e, fst ((fix_11_1;; fix_11_2) w) = inl e)
     ∧ files (snd ((fix_11_1;; fix_11_2) w)) = files w
     ∧ console (snd ((fix_11_1;; fix_11_2) w))
       = console w ++ ["Fix #11.1: Adding req.session.userId to login endpoint..."]
     ∧ console (snd ((fix_11_2;; fix_11_1) w))
       = console w ++ ["Fix #11.2: Simplifying auth checks..."]).
Proof.
  pose proof (route_fixes_by_access w) as H.
  destruct (access_error (platform w) routes_ts (files w !! routes_ts)) as [e|] eqn:E.
  - destruct H as (H1 & H2 & H3 & H4 & H5 & H6).
    split_and!; [by rewrite H1, H2 | by rewrite H3, H4 | | by eauto].
    intros Hex. apply (access_error_none (platform w) routes_ts) in Hex. congruence.
  - destruct H as (H1 & H2 & H3 & H4 & H5).
    split_and!; [by rewrite H1, H2 | done | done |].
    intros Hno. apply (access_error_none (platform w) routes_ts) in E as [raw E].
    by destruct (Hno raw).
Qed.

Lemma route_fixes_either_order_witness :
  files (snd ((fix_11_1;; fix_11_2) other_files))
  = files (snd ((fix_11_2;; fix_11_1) other_files))
  ∧ console (snd ((fix_11_2;; fix_11_1) other_files))
    = ["Fix #11.2: Simplifying auth checks...";
       "✓ Fix #11.2 complete";
       "Fix #11.1: Adding req.session.userId to login endpoint...";
       "✓ Fix #11.1 complete"]
  ∧ files (snd ((fix_11_1;; fix_11_2) read_only_routes)) = files read_only_routes
  ∧ console (snd ((fix_11_2;; fix_11_1) read_only_routes))
    = ["Fix #11.2: Simplifying auth checks..."].
Proof.
  pose proof (route_fixes_either_order other_files) as (_ & H1 & H2 & _).
  pose proof (route_fixes_either_order read_only_routes) as (_ & _ & _ & H3).
  destruct H2 as (_ & _ & H2); [eexists; vm_compute; reflexivity|].
  destruct H3 as (_ & H3 & _ & H4).
  { intros raw H. vm_compute in H. discriminate H. }
  split_and!; [exact H1 | exact H2 | exact H3 | exact H4].
Defined.
